(** * Backtest-Engine: ledger, bar aggregator, statistics collector, scheduler

    A shallow embedding of the core of the engine (src/Core) and the
    properties its specification states about it.

    Modelling conventions.
    - [double] quantities (cash, position, prices, volumes, statistics)
      have two readings.  In the first part they are exact rationals [Q]:
      every finite double is one, and the specification speaks of reals.
      That reading serves the properties that rest on the comparisons of
      doubles and on which operations the code performs, in which order:
      equations that hold by construction are stated with Leibniz
      equality, between the expressions that the code evaluates; the
      algebraic ones, stated with [==], hold of the reals and not of the
      rounded results.  Where the value of an arithmetic expression
      matters, doubles are IEEE 754 binary64 numbers, in the module
      [Binary64]: rounding, infinities and NaN are then part of the model.
    - [uint64_t] timestamps are integers [Z] in [0, 2^64); unsigned
      arithmetic wraps modulo 2^64 ([wrap64]) and a division by zero is
      undefined behaviour, modelled as [None].
    - [int] is a 32-bit signed integer; converting a double that does not
      fit is undefined behaviour, modelled as [None].
    - A C++ object with methods is a record with functions that return the
      updated record; every class is a module named after it, so that
      [OrderManager.execute] is [OrderManager::execute]. *)

From Stdlib Require Import ZArith QArith Qabs Qminmax Lia Lqa.
From Stdlib Require Floats Uint63.
From stdpp Require Import gmap strings list fin_maps.

Local Open Scope Z_scope.

(** ** Machine numbers *)

Definition wrap64 (z : Z) : Z := z mod 2 ^ 64.

Definition uint64_range (z : Z) : Prop := 0 <= z < 2 ^ 64.

Definition INT_MIN : Z := - 2 ^ 31.
Definition INT_MAX : Z := 2 ^ 31 - 1.

(** Floating-integral conversion (double to int): the fractional part is
    discarded; a truncated value outside [int] is undefined behaviour. *)
Definition int_of_double (d : Q) : option Z :=
  let t := Z.quot (Qnum d) (Z.pos (Qden d)) in
  if (INT_MIN <=? t) && (t <=? INT_MAX) then Some t else None.

(** Integral-floating conversion (int to double) is exact. *)
Definition double_of_int (z : Z) : Q := inject_Z z.

(** The comparisons of doubles the source uses. *)
Definition Qlt_bool (a b : Q) : bool :=
  Qnum a * Z.pos (Qden b) <? Qnum b * Z.pos (Qden a).
Definition Qge_bool (a b : Q) : bool := Qle_bool b a.

(** [std::max(a, b)] is [(a < b) ? b : a]; [std::min(a, b)] is
    [(b < a) ? b : a]. *)
Definition std_max (a b : Q) : Q := if Qlt_bool a b then b else a.
Definition std_min (a b : Q) : Q := if Qlt_bool b a then b else a.

(** The literal [1e-8]. *)
Definition eps : Q := 1 # 100000000.

(** ** Market events (Tick.h) *)

Module Tick.
Record t := mk {
  timestamp : Z;
  price : Q;
  volume : Q
}.
End Tick.

Module QuoteTick.
Record t := mk {
  timestamp : Z;
  bid : Q;
  ask : Q;
  volume : Q
}.
End QuoteTick.

(** ** Bars (Bar.h) *)

Module Bar.
Record t := mk {
  startTimestamp : Z;
  endTimestamp : Z;
  open : Q;
  high : Q;
  low : Q;
  close : Q;
  volume : Q
}.
End Bar.

(** ** Orders and the ledger (OrderManager.h, OrderManager.cpp) *)

Inductive OrderType := MARKET | LIMIT.

Module Order.
Inductive Side := BUY | SELL.
Record t := mk {
  side : Side;
  type : OrderType;
  timestamp : Z;
  volume : Q;
  price : Q
}.
Definition is_buy (o : t) : bool :=
  match side o with BUY => true | SELL => false end.
Definition is_sell (o : t) : bool :=
  match side o with SELL => true | BUY => false end.
End Order.

Module OrderManager.

Record t := mk {
  pendingOrders : list Order.t;
  position : Q;
  cash : Q
}.

(** [OrderManager(int cash) : cash(cash) {}], with [position = 0.0] and no
    pending order. *)
Definition new (cash : Z) : t := mk [] 0%Q (double_of_int cash).

Definition execute (om : t) (order : Order.t) : t :=
  match Order.side order with
  | Order.BUY =>
      mk (pendingOrders om)
         (position om + Order.volume order)%Q
         (cash om - Order.volume order * Order.price order)%Q
  | Order.SELL =>
      mk (pendingOrders om)
         (position om - Order.volume order)%Q
         (cash om + Order.volume order * Order.price order)%Q
  end.

Definition submit (om : t) (order : Order.t) : t :=
  match Order.type order with
  | MARKET => execute om order
  | LIMIT => mk (pendingOrders om ++ [order]) (position om) (cash om)
  end.

(** One iteration of the loop of [handleTick(const Tick&)]: the state is
    the ledger (whose cash and position [execute] updates) and the local
    [stillPending]. *)
Definition handleTick_body (tick : Tick.t) (acc : t * list Order.t)
    (order : Order.t) : t * list Order.t :=
  let '(om, stillPending) := acc in
  if Order.is_buy order && Qle_bool (Tick.price tick) (Order.price order) then
    (execute om order, stillPending)
  else if Order.is_sell order
          && Qge_bool (Tick.price tick) (Order.price order) then
    (execute om order, stillPending)
  else (om, stillPending ++ [order]).

Definition handleTick (om : t) (tick : Tick.t) : t :=
  let '(om', stillPending) :=
    fold_left (handleTick_body tick) (pendingOrders om) (om, []) in
  mk stillPending (position om') (cash om').

(** One iteration of the loop of [handleTick(const QuoteTick&)]. *)
Definition handleQuoteTick_body (quote : QuoteTick.t)
    (acc : t * list Order.t) (order : Order.t) : t * list Order.t :=
  let '(om, stillPending) := acc in
  if Order.is_buy order
     && Qge_bool (Order.price order) (QuoteTick.ask quote) then
    (execute om order, stillPending)
  else if Order.is_sell order
          && Qle_bool (Order.price order) (QuoteTick.bid quote) then
    (execute om order, stillPending)
  else (om, stillPending ++ [order]).

Definition handleQuoteTick (om : t) (quote : QuoteTick.t) : t :=
  let '(om', stillPending) :=
    fold_left (handleQuoteTick_body quote) (pendingOrders om) (om, []) in
  mk stillPending (position om') (cash om').

Definition getPnL (om : t) (lastPrice : Q) : Q :=
  (cash om + position om * lastPrice)%Q.

Definition getPosition (om : t) : Q := position om.

End OrderManager.

(** ** The bar aggregator (BarAggregator.h) *)

Module BarAggregator.

Record t := mk {
  windowSize : Z;
  currentWindow : Z;
  currentBar : option Bar.t
}.

Definition new (windowSize : Z) : t := mk windowSize 0 None.

(** [update] returns the completed bar, if any, and the updated aggregator;
    [None] is undefined behaviour: the division by a zero window size (and
    the dereference of an empty [currentBar], which the guard excludes). *)
Definition update (agg : t) (tick : Tick.t) : option (option Bar.t * t) :=
  if windowSize agg =? 0 then None
  else
    let tickWindow :=
      wrap64 (wrap64 (Tick.timestamp tick / windowSize agg)
              * windowSize agg) in
    if negb (bool_decide (is_Some (currentBar agg)))
       || negb (tickWindow =? currentWindow agg) then
      let completed := currentBar agg in
      Some (completed,
            mk (windowSize agg) tickWindow
               (Some (Bar.mk tickWindow
                             (wrap64 (tickWindow + windowSize agg))
                             (Tick.price tick) (Tick.price tick)
                             (Tick.price tick) (Tick.price tick)
                             (Tick.volume tick))))
    else
      match currentBar agg with
      | Some bar =>
          Some (None,
                mk (windowSize agg) (currentWindow agg)
                   (Some (Bar.mk (Bar.startTimestamp bar)
                                 (Bar.endTimestamp bar)
                                 (Bar.open bar)
                                 (std_max (Bar.high bar) (Tick.price tick))
                                 (std_min (Bar.low bar) (Tick.price tick))
                                 (Tick.price tick)
                                 (Bar.volume bar + Tick.volume tick)%Q)))
      | None => None
      end.

Definition flush (agg : t) : option Bar.t := currentBar agg.

End BarAggregator.

(** ** The statistics collector (StatsCollector.h, StatsCollector.cpp) *)

Module StatsCollector.

(** What a registered statistic can read of its collector: the three
    [const] accessors. *)
Record View := mkView {
  getInitialPnL : Q;
  getPnLSeries : list Q;
  getReturnsSeries : list Q
}.

(** [StatsFunction = std::function<double()>]: a closure over the
    collector, evaluated on the collector's state at the time of the call. *)
Abbreviation StatsFunction := (View -> Q).

(** [StatsMap = std::unordered_map<std::string, double>]. *)
Abbreviation StatsMap := (gmap string Q).

Record t := mk {
  initialPnL : Q;
  pnlSeries : list Q;
  returnsSeries : list Q;
  statsFunction : gmap string StatsFunction
}.

(** [StatsCollector() : initialPnL(0.0) {}]. *)
Definition new : t := mk 0%Q [] [] ∅.

Definition view (sc : t) : View :=
  mkView (initialPnL sc) (pnlSeries sc) (returnsSeries sc).

Definition recordPnL (sc : t) (pnl : Q) : t :=
  let initialPnL' :=
    match pnlSeries sc with [] => pnl | _ :: _ => initialPnL sc end in
  let returnsSeries' :=
    match last (pnlSeries sc) with
    | Some prev =>
        returnsSeries sc ++ [((pnl - prev) / (Qabs prev + eps))%Q]
    | None => returnsSeries sc
    end in
  mk initialPnL' (pnlSeries sc ++ [pnl]) returnsSeries' (statsFunction sc).

Definition addStat (sc : t) (name : string) (function : StatsFunction) : t :=
  if bool_decide (is_Some (statsFunction sc !! name)) then sc
  else mk (initialPnL sc) (pnlSeries sc) (returnsSeries sc)
          (<[name := function]> (statsFunction sc)).

(** The loop of [computeStats], instrumented: besides [results] it keeps
    the names whose function it has called, most recent first. *)
Definition computeStats_body (v : View) (acc : StatsMap * list string)
    (entry : string * StatsFunction) : StatsMap * list string :=
  (<[entry.1 := entry.2 v]> acc.1, entry.1 :: acc.2).

(** The registry is an unordered map: the loop visits its entries in the
    order of [map_to_list], each once. *)
Definition computeStats_traced (sc : t) : StatsMap * list string :=
  if (length (pnlSeries sc) <? 2)%nat then (∅, [])
  else fold_left (computeStats_body (view sc))
                 (map_to_list (statsFunction sc)) (∅, []).

Definition computeStats (sc : t) : StatsMap := (computeStats_traced sc).1.

End StatsCollector.

(** ** Time frames (TimeFrame.h) *)

Inductive TimeFrame := MINUTE | FIVEMINTUES | HOUR | DAY.

Definition getTicksPerDay (tf : TimeFrame) : Q :=
  match tf with
  | MINUTE => 390
  | FIVEMINTUES => 78
  | HOUR => 65 # 10
  | DAY => 1
  end.

(** ** Strategies (Strategy.h, QuoteStrategy.h)

    A strategy is an object with a private state and the four callbacks.  It
    holds a pointer to its ledger: a callback reads the ledger and acts on
    it with [submit], so it is a function from the strategy's state and the
    ledger to the new state and the orders it submits, in order.
    [isQuoteStrategy] is the outcome of
    [dynamic_cast<QuoteStrategy*>]; [onQuoteTick] is the overload
    [onTick(const QuoteTick&)]. *)

Module Strategy.
Record t := mk {
  state : Type;
  init : state;
  isQuoteStrategy : bool;
  onStart : state -> OrderManager.t -> state * list Order.t;
  onTick : Tick.t -> state -> OrderManager.t -> state * list Order.t;
  onQuoteTick :
    QuoteTick.t -> state -> OrderManager.t -> state * list Order.t;
  onEnd : state -> OrderManager.t -> state * list Order.t
}.
End Strategy.

(** ** The scheduler (BacktestEngine.h, BacktestEngine.cpp) *)

Module StrategyContext.

Record t := mk {
  name : string;
  strategy : Strategy.t;
  strategy_state : Strategy.state strategy;
  tf : TimeFrame;
  orderManager : OrderManager.t;
  statistics : StatsCollector.t
}.

(** The constructor: [orderManager(initialCash)] passes the [double] to
    [OrderManager(int cash)], an implicit conversion to [int]. *)
Definition new (name : string) (strategy : Strategy.t) (tf : TimeFrame)
    (initialCash : Q) : option t :=
  cash ← int_of_double initialCash;
  Some (mk name strategy (Strategy.init strategy) tf
           (OrderManager.new cash) StatsCollector.new).

(** The effect of a callback of the strategy on its context. *)
Definition deliver (ctx : t)
    (callback : Strategy.state (strategy ctx) -> OrderManager.t ->
                Strategy.state (strategy ctx) * list Order.t) : t :=
  let '(st, orders) := callback (strategy_state ctx) (orderManager ctx) in
  mk (name ctx) (strategy ctx) st (tf ctx)
     (fold_left OrderManager.submit orders (orderManager ctx))
     (statistics ctx).

Definition with_orderManager (ctx : t) (om : OrderManager.t) : t :=
  mk (name ctx) (strategy ctx) (strategy_state ctx) (tf ctx) om
     (statistics ctx).

Definition with_statistics (ctx : t) (sc : StatsCollector.t) : t :=
  mk (name ctx) (strategy ctx) (strategy_state ctx) (tf ctx)
     (orderManager ctx) sc.

End StrategyContext.

(** How a call ends: it returns, or an exception leaves a thread's function
    and [std::terminate] ends the process. *)
Inductive outcome (A : Type) :=
| Returned (a : A)
| Terminated.
Arguments Returned {A} a.
Arguments Terminated {A}.

Module BacktestEngine.

Record t := mk {
  data : list Tick.t;
  quoteData : list QuoteTick.t;
  strategies : list StrategyContext.t
}.

Definition new : t := mk [] [] [].

Definition setTickData (e : t) (ticks : list Tick.t) : t :=
  mk ticks (quoteData e) (strategies e).

Definition setQuoteTickData (e : t) (quoteTicks : list QuoteTick.t) : t :=
  mk (data e) quoteTicks (strategies e).

Definition addStrategy (e : t) (name : string) (strategy : Strategy.t)
    (tf : TimeFrame) (initialCash : Q) : option t :=
  ctx ← StrategyContext.new name strategy tf initialCash;
  Some (mk (data e) (quoteData e) (strategies e ++ [ctx])).

Section RunAll.

(** The bodies of the six statistics of [registerUserStats]
    (Statistiques.h), by time frame and name; they take square roots and
    stay abstract here, as functions that return a value.  Their bodies,
    and when their calls are defined, are in [Binary64.Statistiques]. *)
Variable userStat : TimeFrame -> string -> StatsCollector.StatsFunction.

Definition registerUserStats (collector : StatsCollector.t)
    (tf : TimeFrame) : StatsCollector.t :=
  fold_left
    (fun sc name => StatsCollector.addStat sc name (userStat tf name))
    ["MeanReturn"; "TotalReturn"; "MaxDrawdown"; "AnnualizedVolatility";
     "Sharpe"; "Sortino"]%string
    collector.

(** The body of the loop over [quoteData]. *)
Definition quote_iteration (ctx : StrategyContext.t) (tick : QuoteTick.t)
    : StrategyContext.t :=
  let ctx1 :=
    StrategyContext.deliver ctx
      (Strategy.onQuoteTick (StrategyContext.strategy ctx) tick) in
  let om := OrderManager.handleQuoteTick
              (StrategyContext.orderManager ctx1) tick in
  let pnl :=
    OrderManager.getPnL om
      ((QuoteTick.bid tick + QuoteTick.ask tick) / 2)%Q in
  StrategyContext.with_statistics
    (StrategyContext.with_orderManager ctx1 om)
    (StatsCollector.recordPnL (StrategyContext.statistics ctx1) pnl).

(** The body of the loop over [data]. *)
Definition tick_iteration (ctx : StrategyContext.t) (tick : Tick.t)
    : StrategyContext.t :=
  let ctx1 :=
    StrategyContext.deliver ctx
      (Strategy.onTick (StrategyContext.strategy ctx) tick) in
  let om := OrderManager.handleTick
              (StrategyContext.orderManager ctx1) tick in
  let pnl := OrderManager.getPnL om (Tick.price tick) in
  StrategyContext.with_statistics
    (StrategyContext.with_orderManager ctx1 om)
    (StatsCollector.recordPnL (StrategyContext.statistics ctx1) pnl).

(** What the worker does after its loop: [onEnd], then [computeStats]. *)
Definition finalize (ctx : StrategyContext.t)
    : StrategyContext.t * StatsCollector.StatsMap :=
  let ctx1 :=
    StrategyContext.deliver ctx
      (Strategy.onEnd (StrategyContext.strategy ctx)) in
  (ctx1, StatsCollector.computeStats (StrategyContext.statistics ctx1)).

(** The function of the worker thread of one strategy. *)
Definition worker (e : t) (ctx : StrategyContext.t)
    : outcome (StrategyContext.t * StatsCollector.StatsMap) :=
  let ctx1 :=
    StrategyContext.deliver ctx
      (Strategy.onStart (StrategyContext.strategy ctx)) in
  if Strategy.isQuoteStrategy (StrategyContext.strategy ctx) then
    if negb (bool_decide (quoteData e = [])) then
      Returned (finalize (fold_left quote_iteration (quoteData e) ctx1))
    else Returned (finalize ctx1)
  else if negb (bool_decide (data e = [])) then
    Returned (finalize (fold_left tick_iteration (data e) ctx1))
  else Terminated.

(** The set-up of a strategy before its thread starts. *)
Definition setup (ctx : StrategyContext.t) : StrategyContext.t :=
  StrategyContext.with_statistics ctx
    (registerUserStats (StrategyContext.statistics ctx)
                       (StrategyContext.tf ctx)).

(** The workers share only the read-only series, so their joint run is the
    run of each; the process survives when every worker returns. *)
Fixpoint join (rs : list (outcome (StrategyContext.t
                                   * StatsCollector.StatsMap)))
    : outcome (list (StrategyContext.t * StatsCollector.StatsMap)) :=
  match rs with
  | [] => Returned []
  | Terminated :: _ => Terminated
  | Returned r :: rs' =>
      match join rs' with
      | Returned l => Returned (r :: l)
      | Terminated => Terminated
      end
  end.

Definition runAll (e : t)
    : outcome (t * list (string * StatsCollector.StatsMap)) :=
  match join (map (fun ctx => worker e (setup ctx)) (strategies e)) with
  | Returned rs =>
      Returned (mk (data e) (quoteData e) (map fst rs),
                map (fun r => (StrategyContext.name r.1, r.2)) rs)
  | Terminated => Terminated
  end.

End RunAll.

End BacktestEngine.

(** ** Bar strategies (BarStrategy.h)

    [onBar] is pure virtual: what a derived strategy does with a bar is
    not part of the class.  [onTick] is modelled by the updated strategy
    and the bar it passes to [onBar], if it calls it; [None] is the
    undefined behaviour of [update]. *)

Module BarStrategy.

Record t := mk {
  aggregator : BarAggregator.t
}.

(** [BarStrategy(uint64_t windowSize = 60) : aggregator(windowSize) {}]. *)
Definition new (windowSize : Z) : t := mk (BarAggregator.new windowSize).

Definition default_windowSize : Z := 60.

Definition onTick (bs : t) (tick : Tick.t) : option (t * option Bar.t) :=
  match BarAggregator.update (aggregator bs) tick with
  | Some (bar, agg) => Some (mk agg, bar)
  | None => None
  end.

End BarStrategy.

(** ** The standard statistics (Statistiques.h)

    The body of the lambda of [MaxDrawdown], the statistic of
    [registerUserStats] that only compares and divides. *)

Module Statistiques.
Import StatsCollector.

(** One iteration of the loop of [MaxDrawdown]: the state is [peak] and
    [maxDD]. *)
Definition MaxDrawdown_body (acc : Q * Q) (pnl : Q) : Q * Q :=
  let peak := std_max acc.1 pnl in
  (peak,
   if Qlt_bool eps peak then std_min acc.2 ((pnl - peak) / peak)%Q
   else acc.2).

Definition MaxDrawdown (v : View) : Q :=
  match getPnLSeries v with
  | [] => 0
  | first :: _ => (fold_left MaxDrawdown_body (getPnLSeries v) (first, 0%Q)).2
  end.

End Statistiques.

(** ** The strategies (src/Strategies) *)

Module BreakoutStrategy.

(** The state; the field [lastPrice] of the class is never read or
    written and is left out.  [WinSize] is the template parameter. *)
Record state := mkState {
  recentPrices : list Q;
  inPosition : bool;
  entryPrice : Q
}.

Definition init : state := mkState [] false 0.

(** [*std::max_element(first, last)] and [*std::min_element(first, last)]:
    the first greatest and the first least element; dereferencing the
    result on an empty range is undefined behaviour. *)
Definition max_element (l : list Q) : option Q :=
  match l with
  | [] => None
  | a :: l' => Some (fold_left std_max l' a)
  end.

Definition min_element (l : list Q) : option Q :=
  match l with
  | [] => None
  | a :: l' => Some (fold_left std_min l' a)
  end.

(** The conversion of the [int] template parameter to [size_t] in the
    comparisons with [recentPrices.size()]. *)
Definition to_size_t (z : Z) : Z := z mod 2 ^ 64.

(** The update of the rolling window at the end of [onTick]. *)
Definition push (WinSize : Z) (prices : list Q) (price : Q) : list Q :=
  let prices' := prices ++ [price] in
  if to_size_t WinSize <? Z.of_nat (length prices') then tail prices'
  else prices'.

Definition onTick (WinSize : Z) (tick : Tick.t) (st : state)
    : option (state * list Order.t) :=
  if to_size_t WinSize <=? Z.of_nat (length (recentPrices st)) then
    match max_element (recentPrices st), min_element (recentPrices st) with
    | Some high, Some low =>
        if negb (inPosition st) && Qlt_bool high (Tick.price tick) then
          Some (mkState (push WinSize (recentPrices st) (Tick.price tick))
                        true (Tick.price tick),
                [Order.mk Order.BUY MARKET (Tick.timestamp tick) 1
                          (Tick.price tick)])
        else if inPosition st && Qlt_bool (Tick.price tick) low then
          Some (mkState (push WinSize (recentPrices st) (Tick.price tick))
                        false (entryPrice st),
                [Order.mk Order.SELL MARKET (Tick.timestamp tick) 1
                          (Tick.price tick)])
        else
          Some (mkState (push WinSize (recentPrices st) (Tick.price tick))
                        (inPosition st) (entryPrice st), [])
    | _, _ => None
    end
  else
    Some (mkState (push WinSize (recentPrices st) (Tick.price tick))
                  (inPosition st) (entryPrice st), []).

End BreakoutStrategy.

(** * The arithmetic of doubles

    Where the value of an arithmetic expression matters, a [double] is an
    IEEE 754 binary64 number, Rocq's primitive [float]: every addition,
    subtraction, multiplication, division and square root is rounded to the
    nearest double, ties to even, infinities and NaN included.  This is the
    arithmetic of the source on a target that evaluates doubles in binary64
    and does not contract [a + b * c] into one fused operation.  A decimal
    literal is the double nearest to it, as in the source.  The classes
    below are the ones of the first part, with these doubles. *)

Module Binary64.
Import Floats.
#[local] Set Warnings "-inexact-float".

Abbreviation double := float.

(** The real number that a finite double is (0 for infinities and NaN). *)
Definition real (x : double) : Q :=
  match Prim2SF x with
  | S754_finite s m e =>
      (inject_Z (if s then Z.neg m else Z.pos m) * 2 ^ e)%Q
  | _ => 0%Q
  end.

(** Integral-floating conversions: exact for an [int]; for the size of a
    vector of doubles, which is below 2^61, exact up to 2^53 and rounded
    to nearest above. *)
Definition double_of_int (z : Z) : double :=
  if z <? 0 then (- of_uint63 (Uint63.of_Z (- z)))%float
  else of_uint63 (Uint63.of_Z z).

Definition double_of_size_t (n : nat) : double :=
  of_uint63 (Uint63.of_Z (Z.of_nat n)).

(** [std::max(a, b)] is [(a < b) ? b : a]; [std::min(a, b)] is
    [(b < a) ? b : a]. *)
Definition std_max (a b : double) : double := if (a <? b)%float then b else a.
Definition std_min (a b : double) : double := if (b <? a)%float then b else a.

Module Tick.
Record t := mk {
  timestamp : Z;
  price : double;
  volume : double
}.
End Tick.

Module Order.
Inductive Side := BUY | SELL.
Record t := mk {
  side : Side;
  type : OrderType;
  timestamp : Z;
  volume : double;
  price : double
}.
Definition is_buy (o : t) : bool :=
  match side o with BUY => true | SELL => false end.
Definition is_sell (o : t) : bool :=
  match side o with SELL => true | BUY => false end.
End Order.

Module OrderManager.

Record t := mk {
  pendingOrders : list Order.t;
  position : double;
  cash : double
}.

(** [OrderManager(int cash) : cash(cash) {}], with [position = 0.0]. *)
Definition new (cash : Z) : t := mk [] 0%float (double_of_int cash).

(** [position += order.volume; cash -= order.volume * order.price;] and
    the same with the signs exchanged: the product is rounded, then the
    sum or difference. *)
Definition execute (om : t) (order : Order.t) : t :=
  match Order.side order with
  | Order.BUY =>
      mk (pendingOrders om)
         (position om + Order.volume order)%float
         (cash om - Order.volume order * Order.price order)%float
  | Order.SELL =>
      mk (pendingOrders om)
         (position om - Order.volume order)%float
         (cash om + Order.volume order * Order.price order)%float
  end.

Definition submit (om : t) (order : Order.t) : t :=
  match Order.type order with
  | MARKET => execute om order
  | LIMIT => mk (pendingOrders om ++ [order]) (position om) (cash om)
  end.

(** One iteration of the loop of [handleTick(const Tick&)];
    [tick.price >= order.price] is [order.price <= tick.price]. *)
Definition handleTick_body (tick : Tick.t) (acc : t * list Order.t)
    (order : Order.t) : t * list Order.t :=
  let '(om, stillPending) := acc in
  if Order.is_buy order
     && (Tick.price tick <=? Order.price order)%float then
    (execute om order, stillPending)
  else if Order.is_sell order
          && (Order.price order <=? Tick.price tick)%float then
    (execute om order, stillPending)
  else (om, stillPending ++ [order]).

Definition handleTick (om : t) (tick : Tick.t) : t :=
  let '(om', stillPending) :=
    fold_left (handleTick_body tick) (pendingOrders om) (om, []) in
  mk stillPending (position om') (cash om').

Definition getPnL (om : t) (lastPrice : double) : double :=
  (cash om + position om * lastPrice)%float.

End OrderManager.

(** [MeanReversionSimple] (MeanReversionSimpleStrategy.h and .cpp): the
    strategy holds a pointer to its ledger, which [runAll] sets before the
    run, and submits to it, so [onTick] takes the strategy and the ledger
    to the strategy and the ledger. *)
Module MeanReversionSimple.

Record t := mk {
  lastPrice : double;
  inPosition : bool;
  entryPrice : double
}.

(** [lastPrice = -1.0], [inPosition = false], [entryPrice = 0.0]. *)
Definition new : t := mk (-1)%float false 0%float.

(** [tick.price > entryPrice * 1.005] is [entryPrice * 1.005 < tick.price]. *)
Definition onTick (tick : Tick.t) (s : t * OrderManager.t)
    : t * OrderManager.t :=
  let '(st, om) := s in
  if (lastPrice st <? 0)%float then
    (mk (Tick.price tick) (inPosition st) (entryPrice st), om)
  else if negb (inPosition st)
          && (Tick.price tick <? lastPrice st * 0.995)%float then
    (mk (Tick.price tick) true (Tick.price tick),
     OrderManager.submit om
       (Order.mk Order.BUY MARKET (Tick.timestamp tick) 1%float
                 (Tick.price tick)))
  else if inPosition st
          && (entryPrice st * 1.005 <? Tick.price tick)%float then
    (mk (Tick.price tick) false (entryPrice st),
     OrderManager.submit om
       (Order.mk Order.SELL MARKET (Tick.timestamp tick) 1%float
                 (Tick.price tick)))
  else
    (mk (Tick.price tick) (inPosition st) (entryPrice st), om).

End MeanReversionSimple.

Module StatsCollector.

Record View := mkView {
  getInitialPnL : double;
  getPnLSeries : list double;
  getReturnsSeries : list double
}.

(** [StatsFunction = std::function<double()>]: a closure over the
    collector; [None] when the call is undefined behaviour. *)
Abbreviation StatsFunction := (View -> option double).

Abbreviation StatsMap := (gmap string double).

Record t := mk {
  initialPnL : double;
  pnlSeries : list double;
  returnsSeries : list double;
  statsFunction : gmap string StatsFunction
}.

Definition new : t := mk 0%float [] [] ∅.

Definition view (sc : t) : View :=
  mkView (initialPnL sc) (pnlSeries sc) (returnsSeries sc).

Definition recordPnL (sc : t) (pnl : double) : t :=
  let initialPnL' :=
    match pnlSeries sc with [] => pnl | _ :: _ => initialPnL sc end in
  let returnsSeries' :=
    match last (pnlSeries sc) with
    | Some prev =>
        returnsSeries sc ++ [((pnl - prev) / (abs prev + 1e-8))%float]
    | None => returnsSeries sc
    end in
  mk initialPnL' (pnlSeries sc ++ [pnl]) returnsSeries' (statsFunction sc).

Definition addStat (sc : t) (name : string) (function : StatsFunction) : t :=
  if bool_decide (is_Some (statsFunction sc !! name)) then sc
  else mk (initialPnL sc) (pnlSeries sc) (returnsSeries sc)
          (<[name := function]> (statsFunction sc)).

(** One iteration of the loop of [computeStats]: [results[name] = fn()]. *)
Definition computeStats_body (v : View) (acc : option StatsMap)
    (entry : string * StatsFunction) : option StatsMap :=
  results ← acc;
  value ← entry.2 v;
  Some (<[entry.1 := value]> results).

(** The registry is an unordered map: the loop visits its entries in the
    order of [map_to_list], each once. *)
Definition computeStats (sc : t) : option StatsMap :=
  if (length (pnlSeries sc) <? 2)%nat then Some ∅
  else fold_left (computeStats_body (view sc))
                 (map_to_list (statsFunction sc)) (Some ∅).

End StatsCollector.

Definition getTicksPerDay (tf : TimeFrame) : double :=
  match tf with
  | MINUTE => 390%float
  | FIVEMINTUES => 78%float
  | HOUR => 6.5%float
  | DAY => 1%float
  end.

(** The six statistics of [registerUserStats] (Statistiques.h), each the
    body of its lambda. *)
Module Statistiques.
Import StatsCollector.

(** A variable that a lambda captures by reference.  The lambda is called
    when [computeStats] runs; reading the variable then is undefined
    behaviour if its lifetime has ended. *)
Inductive reference (A : Type) :=
| live (a : A)
| dead.
Arguments live {A} a.
Arguments dead {A}.

Definition read {A : Type} (r : reference A) : option A :=
  match r with
  | live a => Some a
  | dead => None
  end.

(** [std::accumulate(first, last, init)]. *)
Definition accumulate (l : list double) (init : double) : double :=
  fold_left (fun acc x => (acc + x)%float) l init.

Definition MeanReturn (v : View) : option double :=
  let ret := getReturnsSeries v in
  match ret with
  | [] => Some 0%float
  | _ :: _ =>
      Some (accumulate ret 0 / double_of_size_t (length ret))%float
  end.

(** [pnl.front()] and [pnl.back()] of an empty vector are undefined
    behaviour. *)
Definition TotalReturn (v : View) : option double :=
  let pnl := getPnLSeries v in
  match pnl, last pnl with
  | front :: _, Some back =>
      Some (if (1e-8 <? abs front)%float then (back / front - 1)%float
            else 0%float)
  | _, _ => None
  end.

(** One iteration of the loop of [MaxDrawdown]: the state is [peak] and
    [maxDD]. *)
Definition MaxDrawdown_body (acc : double * double) (pnl : double)
    : double * double :=
  let peak := std_max acc.1 pnl in
  (peak,
   if (1e-8 <? peak)%float then std_min acc.2 ((pnl - peak) / peak)%float
   else acc.2).

Definition MaxDrawdown (v : View) : option double :=
  let pnlSeries := getPnLSeries v in
  match pnlSeries with
  | [] => Some 0%float
  | first :: _ =>
      Some (fold_left MaxDrawdown_body pnlSeries (first, 0%float)).2
  end.

(** The mean and the variance that [AnnualizedVolatility] and [Sharpe]
    compute. *)
Definition mean (returns : list double) : double :=
  (accumulate returns 0 / double_of_size_t (length returns))%float.

Definition variance (returns : list double) : double :=
  let mean := mean returns in
  let var :=
    fold_left (fun var ret => (var + (ret - mean) * (ret - mean))%float)
              returns 0%float in
  (var / double_of_size_t (length returns))%float.

Definition AnnualizedVolatility (nPeriods : double) (v : View)
    : option double :=
  let returns := getReturnsSeries v in
  if (length returns <? 2)%nat then Some 0%float
  else Some (sqrt (variance returns) * sqrt nPeriods)%float.

(** [Sharpe] captures [&riskFreeRate] and [&periodsPerYear] and reads the
    former in its last statement. *)
Definition Sharpe (nPeriods : double) (riskFreeRate : reference double)
    (v : View) : option double :=
  let returns := getReturnsSeries v in
  if (length returns <? 2)%nat then Some 0%float
  else
    let mean := mean returns in
    let var := variance returns in
    riskFreeRate ← read riskFreeRate;
    Some ((mean - riskFreeRate) / sqrt (var + 1e-8) * sqrt nPeriods)%float.

(** One iteration of the loop of [Sortino]: the state is [downsideVar] and
    the [int] [downsideCount], whose overflow is undefined behaviour. *)
Definition Sortino_body (acc : option (double * Z)) (ret : double)
    : option (double * Z) :=
  '(downsideVar, downsideCount) ← acc;
  if (ret <? 0)%float then
    if downsideCount <? INT_MAX then
      Some ((downsideVar + ret * ret)%float, downsideCount + 1)
    else None
  else Some (downsideVar, downsideCount).

Definition Sortino (nPeriods : double) (riskFreeRate : reference double)
    (v : View) : option double :=
  let returns := getReturnsSeries v in
  let mean := mean returns in
  '(downsideVar, downsideCount) ←
    fold_left Sortino_body returns (Some (0%float, 0));
  if (length returns <? 2)%nat || (downsideCount =? 0) then Some 0%float
  else
    let downsideVar := (downsideVar / double_of_int downsideCount)%float in
    riskFreeRate ← read riskFreeRate;
    Some ((mean - riskFreeRate) / sqrt (downsideVar + 1e-8)
          * sqrt nPeriods)%float.

(** [registerUserStats(collector, tf, riskFreeRate, periodsPerYear)].  The
    lambdas are stored in the collector and called by [computeStats], after
    [registerUserStats] has returned: its parameters [riskFreeRate] and
    [periodsPerYear], which [Sharpe] and [Sortino] capture by reference,
    are dead by then; [nPeriods] is captured by value. *)
Definition registerUserStats (collector : t) (tf : TimeFrame)
    (riskFreeRate periodsPerYear : double) : t :=
  let nPeriods := (getTicksPerDay tf * periodsPerYear)%float in
  let collector := addStat collector "MeanReturn" MeanReturn in
  let collector := addStat collector "TotalReturn" TotalReturn in
  let collector := addStat collector "MaxDrawdown" MaxDrawdown in
  let collector :=
    addStat collector "AnnualizedVolatility"
            (AnnualizedVolatility nPeriods) in
  let collector := addStat collector "Sharpe" (Sharpe nPeriods dead) in
  addStat collector "Sortino" (Sortino nPeriods dead).

End Statistiques.

(** The body of the loop of the worker of [runAll] over trade data, for a
    strategy that acts on its ledger through [onTick]: the callback, then
    the matching of the pending orders.  (The recording of the valuation
    that follows reads the ledger and changes the collector only.) *)
Definition tick_iteration {S : Type}
    (onTick : Tick.t -> S * OrderManager.t -> S * OrderManager.t)
    (s : S * OrderManager.t) (tick : Tick.t) : S * OrderManager.t :=
  let s' := onTick tick s in
  (s'.1, OrderManager.handleTick s'.2 tick).

(** ** Vocabulary *)

(** The side-signed volume and value of an order, as real numbers. *)
Definition signed_volume (o : Order.t) : Q :=
  match Order.side o with
  | Order.BUY => real (Order.volume o)
  | Order.SELL => (- real (Order.volume o))%Q
  end.

Definition signed_value (o : Order.t) : Q :=
  match Order.side o with
  | Order.BUY => (real (Order.volume o) * real (Order.price o))%Q
  | Order.SELL => (- (real (Order.volume o) * real (Order.price o)))%Q
  end.




(** When a trade tick fills a pending order. *)
Definition tick_fills (tick : Tick.t) (o : Order.t) : bool :=
  match Order.side o with
  | Order.BUY => (Tick.price tick <=? Order.price o)%float
  | Order.SELL => (Order.price o <=? Tick.price tick)%float
  end.

Definition is_market (o : Order.t) : bool :=
  match Order.type o with MARKET => true | LIMIT => false end.

Definition is_limit (o : Order.t) : bool :=
  match Order.type o with LIMIT => true | MARKET => false end.

(** What the mean-reversion strategy keeps of its ledger: nothing pending,
    and a position of exactly one unit when it is in position, of zero
    when it is not. *)
Definition mean_reversion_inv (s : MeanReversionSimple.t * OrderManager.t)
    : Prop :=
  OrderManager.pendingOrders s.2 = []
  /\ OrderManager.position s.2
     = if MeanReversionSimple.inPosition s.1 then 1%float else 0%float.

(** The names that [registerUserStats] registers. *)
Definition user_stat_names : list string :=
  ["MeanReturn"; "TotalReturn"; "MaxDrawdown"; "AnnualizedVolatility";
   "Sharpe"; "Sortino"]%string.

End Binary64.

(** * Vocabulary of the statements *)

(** ** The ledger *)

(** The sum of a list of rationals. *)
Definition Qsum (l : list Q) : Q := fold_right Qplus 0%Q l.

(** The side-signed volume and value of an order: a buy counts
    positively, a sell negatively. *)
Definition signed_volume (o : Order.t) : Q :=
  match Order.side o with
  | Order.BUY => Order.volume o
  | Order.SELL => (- Order.volume o)%Q
  end.

Definition signed_value (o : Order.t) : Q :=
  match Order.side o with
  | Order.BUY => (Order.volume o * Order.price o)%Q
  | Order.SELL => (- (Order.volume o * Order.price o))%Q
  end.

(** When a quote fills a pending order: a buy at or above the ask, a sell
    at or below the bid. *)
Definition quote_fills (q : QuoteTick.t) (o : Order.t) : bool :=
  match Order.side o with
  | Order.BUY => Qle_bool (QuoteTick.ask q) (Order.price o)
  | Order.SELL => Qle_bool (Order.price o) (QuoteTick.bid q)
  end.

(** ** The bar aggregator *)

Module BarSpec.
Import BarAggregator.

(** Feeding a stream of ticks to an aggregator, the completed bars
    dropped; [None] when an [update] is undefined. *)
Fixpoint feed (agg : t) (ticks : list Tick.t) : option t :=
  match ticks with
  | [] => Some agg
  | tick :: ticks' =>
      match update agg tick with
      | Some (_, agg') => feed agg' ticks'
      | None => None
      end
  end.

(** The aggregators a program can hold: a new one, fed some ticks. *)
Definition reachable (w : Z) (agg : t) : Prop :=
  exists ticks, feed (new w) ticks = Some agg.

(** The bar that [update] opens for a tick in window [windowStart]. *)
Definition seeded (w windowStart : Z) (tick : Tick.t) : Bar.t :=
  Bar.mk windowStart (wrap64 (windowStart + w))
         (Tick.price tick) (Tick.price tick)
         (Tick.price tick) (Tick.price tick) (Tick.volume tick).

(** The bar that [update] makes of the bar in progress and a tick of the
    same window. *)
Definition extended (bar : Bar.t) (tick : Tick.t) : Bar.t :=
  Bar.mk (Bar.startTimestamp bar) (Bar.endTimestamp bar) (Bar.open bar)
         (Qmax (Bar.high bar) (Tick.price tick))
         (Qmin (Bar.low bar) (Tick.price tick))
         (Tick.price tick)
         (Bar.volume bar + Tick.volume tick)%Q.

(** The shape of a bar of an aggregator of window size [w]: the low is at
    most the open and the close, the high at least both, and the window
    ends one window size after its start, in 64-bit arithmetic. *)
Definition bar_ok (w : Z) (bar : Bar.t) : Prop :=
  (Bar.low bar <= Qmin (Bar.open bar) (Bar.close bar))%Q
  /\ (Qmax (Bar.open bar) (Bar.close bar) <= Bar.high bar)%Q
  /\ uint64_range (Bar.startTimestamp bar)
  /\ Bar.endTimestamp bar = wrap64 (Bar.startTimestamp bar + w).

(** The invariant of the private state: [currentWindow] is the start of
    the bar in progress, which has the shape above. *)
Definition inv (w : Z) (agg : t) : Prop :=
  windowSize agg = w
  /\ forall bar, currentBar agg = Some bar ->
       currentWindow agg = Bar.startTimestamp bar /\ bar_ok w bar.

End BarSpec.

(** ** The statistics collector *)

Module StatsSpec.

(** The return from [prev] to [cur], as [recordPnL] computes it. *)
Definition return_of (prev cur : Q) : Q :=
  ((cur - prev) / (Qabs prev + eps))%Q.

(** The returns between the consecutive values of a series. *)
Definition returns_of (values : list Q) : list Q :=
  zip_with return_of values (tail values).

(** A statistic for the examples: the last recorded value, 0 if none. *)
Definition last_value : StatsCollector.StatsFunction :=
  fun v => default 0%Q (last (StatsCollector.getPnLSeries v)).

End StatsSpec.

(** ** The scheduler *)

Module EngineSpec.
Import BacktestEngine.

(** The contexts a loop of the worker goes through, one per event. *)
Fixpoint states_after {E : Type}
    (step : StrategyContext.t -> E -> StrategyContext.t)
    (ctx : StrategyContext.t) (events : list E) : list StrategyContext.t :=
  match events with
  | [] => []
  | ev :: events' =>
      let ctx' := step ctx ev in
      ctx' :: states_after step ctx' events'
  end.

(** The mid-price of a quote. *)
Definition mid (q : QuoteTick.t) : Q :=
  ((QuoteTick.bid q + QuoteTick.ask q) / 2)%Q.

(** The valuation of the ledger of a context at a price. *)
Definition valuation (ctx : StrategyContext.t) (p : Q) : Q :=
  (OrderManager.cash (StrategyContext.orderManager ctx)
   + OrderManager.position (StrategyContext.orderManager ctx) * p)%Q.

(** A quote-based strategy that never trades. *)
Definition idle_quote_strategy : Strategy.t :=
  Strategy.mk unit tt true
    (fun st _ => (st, [])) (fun _ st _ => (st, []))
    (fun _ st _ => (st, [])) (fun st _ => (st, [])).

(** The context of that strategy, registered with cash 10000. *)
Definition idle_quote_context : StrategyContext.t :=
  StrategyContext.mk "Spread" idle_quote_strategy tt MINUTE
                     (OrderManager.new 10000) StatsCollector.new.

(** A trade-based strategy that never trades. *)
Definition idle_strategy : Strategy.t :=
  Strategy.mk unit tt false
    (fun st _ => (st, [])) (fun _ st _ => (st, []))
    (fun _ st _ => (st, [])) (fun st _ => (st, [])).

(** The context of that strategy, registered with cash 10000. *)
Definition idle_context : StrategyContext.t :=
  StrategyContext.mk "Idle" idle_strategy tt MINUTE
                     (OrderManager.new 10000) StatsCollector.new.

End EngineSpec.

(** ** The ledger, continued *)

(** When a trade tick fills a pending order: a buy whose price the tick
    has reached from above, a sell whose price it has reached from below. *)
Definition tick_fills (tick : Tick.t) (o : Order.t) : bool :=
  match Order.side o with
  | Order.BUY => Qle_bool (Tick.price tick) (Order.price o)
  | Order.SELL => Qle_bool (Order.price o) (Tick.price tick)
  end.

(** The calls of the public interface of the ledger that change it. *)
Inductive ledger_call :=
| CallSubmit (order : Order.t)
| CallExecute (order : Order.t)
| CallHandleTick (tick : Tick.t)
| CallHandleQuoteTick (quote : QuoteTick.t).

Definition call (om : OrderManager.t) (c : ledger_call) : OrderManager.t :=
  match c with
  | CallSubmit o => OrderManager.submit om o
  | CallExecute o => OrderManager.execute om o
  | CallHandleTick t => OrderManager.handleTick om t
  | CallHandleQuoteTick q => OrderManager.handleQuoteTick om q
  end.

(** ** The bar aggregator, continued *)

Module BarRuns.
Import BarAggregator.

(** Feeding a stream of ticks to an aggregator and collecting the bars
    that [update] returns, in order; [None] when an [update] is
    undefined. *)
Fixpoint collect (agg : t) (ticks : list Tick.t)
    : option (list Bar.t * t) :=
  match ticks with
  | [] => Some ([], agg)
  | tick :: ticks' =>
      match update agg tick with
      | Some (r, agg') =>
          match collect agg' ticks' with
          | Some (bars, agg'') => Some (option_list r ++ bars, agg'')
          | None => None
          end
      | None => None
      end
  end.

(** The start of the window of a timestamp. *)
Definition window_start (w ts : Z) : Z := ts / w * w.

(** The last element of a list, or [d] for the empty list. *)
Definition last_or (d : Q) (l : list Q) : Q := List.last l d.

End BarRuns.

(** ** Bar strategies *)

Module BarStrategyRuns.

(** The bars that a bar strategy passes to [onBar] over a stream of ticks,
    in order. *)
Fixpoint delivered (bs : BarStrategy.t) (ticks : list Tick.t)
    : option (list Bar.t * BarStrategy.t) :=
  match ticks with
  | [] => Some ([], bs)
  | tick :: ticks' =>
      match BarStrategy.onTick bs tick with
      | Some (bs', bar) =>
          match delivered bs' ticks' with
          | Some (bars, bs'') => Some (option_list bar ++ bars, bs'')
          | None => None
          end
      | None => None
      end
  end.

End BarStrategyRuns.

(** ** The standard statistics *)

(** The names that [registerUserStats] registers. *)
Definition user_stat_names : list string :=
  ["MeanReturn"; "TotalReturn"; "MaxDrawdown"; "AnnualizedVolatility";
   "Sharpe"; "Sortino"]%string.

(** A series that never falls. *)
Fixpoint nondecreasing (l : list Q) : Prop :=
  match l with
  | [] => True
  | a :: l' => Forall (fun b => (a <= b)%Q) l' /\ nondecreasing l'
  end.

(** ** The strategies *)

Module StrategyRuns.

(** A breakout strategy over a stream of ticks: its final state and the
    orders it submits, in order; [None] when an [onTick] is undefined. *)
Fixpoint breakout_run (WinSize : Z) (st : BreakoutStrategy.state)
    (ticks : list Tick.t)
    : option (BreakoutStrategy.state * list Order.t) :=
  match ticks with
  | [] => Some (st, [])
  | tick :: ticks' =>
      match BreakoutStrategy.onTick WinSize tick st with
      | Some (st', orders) =>
          match breakout_run WinSize st' ticks' with
          | Some (st'', orders') => Some (st'', orders ++ orders')
          | None => None
          end
      | None => None
      end
  end.

(** The last [n] elements of a list, all of it when it is shorter. *)
Definition last_n (n : nat) (l : list Q) : list Q := drop (length l - n) l.

(** Orders that alternate, a buy first when [buy_next] holds, each a
    market order of volume 1. *)
Fixpoint alternating (buy_next : bool) (orders : list Order.t) : Prop :=
  match orders with
  | [] => True
  | o :: orders' =>
      Order.side o = (if buy_next then Order.BUY else Order.SELL)
      /\ Order.type o = MARKET /\ Order.volume o = 1%Q
      /\ alternating (negb buy_next) orders'
  end.

End StrategyRuns.

(** * Properties *)

(** ** Comparisons *)

Lemma Qlt_bool_compare (a b : Q) :
  Qlt_bool a b = match (a ?= b)%Q with Lt => true | _ => false end.
Proof. unfold Qlt_bool, Qcompare, Z.ltb. reflexivity. Qed.

Lemma std_max_Qmax (a b : Q) : std_max a b = Qmax a b.
Proof.
  unfold std_max, Qmax, GenericMinMax.gmax. rewrite Qlt_bool_compare.
  destruct (a ?= b)%Q; reflexivity.
Qed.

Lemma std_min_Qmin (a b : Q) : std_min a b = Qmin a b.
Proof.
  unfold std_min, Qmin, GenericMinMax.gmin. rewrite Qlt_bool_compare.
  rewrite <- (Qcompare_antisym a b).
  destruct (a ?= b)%Q; reflexivity.
Qed.

(** ** The ledger *)

Module LedgerFacts.
Import OrderManager.

Lemma execute_pending om o : pendingOrders (execute om o) = pendingOrders om.
Proof. unfold execute. destruct (Order.side o); reflexivity. Qed.

Lemma execute_cash om o : (cash (execute om o) == cash om - signed_value o)%Q.
Proof.
  unfold execute, signed_value. destruct (Order.side o); simpl; ring.
Qed.

Lemma execute_position om o :
  (position (execute om o) == position om + signed_volume o)%Q.
Proof.
  unfold execute, signed_volume. destruct (Order.side o); simpl; ring.
Qed.

Lemma execute_all om orders :
  pendingOrders (fold_left execute orders om) = pendingOrders om
  /\ (cash (fold_left execute orders om)
      == cash om - Qsum (map signed_value orders))%Q
  /\ (position (fold_left execute orders om)
      == position om + Qsum (map signed_volume orders))%Q.
Proof.
  revert om. induction orders as [|o orders IH]; intros om; simpl.
  - repeat split; ring.
  - destruct (IH (execute om o)) as (Hp & Hc & Hq).
    rewrite Hp, Hc, Hq, execute_pending, execute_cash, execute_position.
    repeat split; ring.
Qed.

Lemma quote_fills_iff q o :
  quote_fills q o = true <->
  match Order.side o with
  | Order.BUY => (QuoteTick.ask q <= Order.price o)%Q
  | Order.SELL => (Order.price o <= QuoteTick.bid q)%Q
  end.
Proof. unfold quote_fills. destruct (Order.side o); apply Qle_bool_iff. Qed.

Lemma handleQuoteTick_body_fills q om still o :
  handleQuoteTick_body q (om, still) o
  = if quote_fills q o then (execute om o, still) else (om, still ++ [o]).
Proof.
  unfold handleQuoteTick_body, quote_fills, Order.is_buy, Order.is_sell,
    Qge_bool.
  destruct (Order.side o); simpl;
    destruct (Qle_bool _ _); reflexivity.
Qed.

(** The loop separates the pending orders: it executes the ones the quote
    fills, in order, and keeps the others, in order. *)
Lemma handleQuoteTick_loop q l om still :
  fold_left (handleQuoteTick_body q) l (om, still)
  = (fold_left execute (List.filter (quote_fills q) l) om,
     still ++ List.filter (fun o => negb (quote_fills q o)) l).
Proof.
  revert om still.
  induction l as [|o l IH]; intros om still; cbn [fold_left List.filter].
  - by rewrite app_nil_r.
  - rewrite handleQuoteTick_body_fills.
    destruct (quote_fills q o); cbn [negb fold_left]; rewrite IH; [done|].
    by rewrite <- app_assoc.
Qed.

Lemma handleQuoteTick_eq om q :
  handleQuoteTick om q
  = let om' := fold_left execute
                 (List.filter (quote_fills q) (pendingOrders om)) om in
    mk (List.filter (fun o => negb (quote_fills q o)) (pendingOrders om))
       (position om') (cash om').
Proof. unfold handleQuoteTick. by rewrite handleQuoteTick_loop. Qed.

(** C4. Quote matching: [handleTick(const QuoteTick&)] fills exactly the
    pending orders that qualify (a buy whose price is at least the ask, a
    sell whose price is at most the bid), each through [execute] and thus
    for its full volume; the others stay pending, in order.  A pending buy
    limit at 101 fills on a quote whose ask is at most 101 and stays
    pending on a quote whose ask is above 101, and so through any sequence
    of such quotes. *)
Theorem quote_matching :
  (forall q o,
     quote_fills q o = true <->
     match Order.side o with
     | Order.BUY => (Order.price o >= QuoteTick.ask q)%Q
     | Order.SELL => (Order.price o <= QuoteTick.bid q)%Q
     end)
  /\ (forall om q,
       let filled := List.filter (quote_fills q) (pendingOrders om) in
       let om' := handleQuoteTick om q in
       pendingOrders om'
       = List.filter (fun o => negb (quote_fills q o)) (pendingOrders om)
       /\ position om' = position (fold_left execute filled om)
       /\ cash om' = cash (fold_left execute filled om)
       /\ (position om'
           == position om + Qsum (map signed_volume filled))%Q
       /\ (cash om' == cash om - Qsum (map signed_value filled))%Q)
  /\ (forall om q o,
       In o (pendingOrders om) ->
       (In o (pendingOrders (handleQuoteTick om q))
        <-> quote_fills q o = false))
  /\ (forall (q : QuoteTick.t) (t : Z) (v pos c : Q),
       let om := submit (mk [] pos c) (Order.mk Order.BUY LIMIT t v 101) in
       ((QuoteTick.ask q <= 101)%Q ->
        handleQuoteTick om q = mk [] (pos + v)%Q (c - v * 101)%Q)
       /\ ((101 < QuoteTick.ask q)%Q -> handleQuoteTick om q = om))
  /\ (forall (quotes : list QuoteTick.t) (t : Z) (v pos c : Q),
       let om := submit (mk [] pos c) (Order.mk Order.BUY LIMIT t v 101) in
       Forall (fun q => (101 < QuoteTick.ask q)%Q) quotes ->
       fold_left handleQuoteTick quotes om = om).
Proof.
  assert (Hstay : forall (q : QuoteTick.t) (t : Z) (v pos c : Q),
             (101 < QuoteTick.ask q)%Q ->
             handleQuoteTick
               (submit (mk [] pos c) (Order.mk Order.BUY LIMIT t v 101)) q
             = submit (mk [] pos c) (Order.mk Order.BUY LIMIT t v 101)).
  { intros q t v pos c Hask. unfold submit.
    cbn [Order.type pendingOrders position cash app].
    rewrite handleQuoteTick_eq. cbn [pendingOrders List.filter].
    assert (Hf : quote_fills q (Order.mk Order.BUY LIMIT t v 101) = false).
    { destruct (quote_fills q _) eqn:E; [|done].
      apply quote_fills_iff in E. simpl in E. lra. }
    rewrite Hf. reflexivity. }
  split; [exact quote_fills_iff|].
  split; [|split; [|split]].
  - intros om q filled om'. subst om' filled.
    rewrite handleQuoteTick_eq. cbn [pendingOrders position cash].
    destruct (execute_all om (List.filter (quote_fills q) (pendingOrders om)))
      as (_ & Hc & Hp).
    repeat split; assumption.
  - intros om q o Hin. rewrite handleQuoteTick_eq.
    cbn [pendingOrders]. rewrite filter_In.
    destruct (quote_fills q o); simpl; intuition congruence.
  - intros q t v pos c om. subst om. split; intros Hask.
    + unfold submit. cbn [Order.type pendingOrders position cash app].
      rewrite handleQuoteTick_eq. cbn [pendingOrders List.filter].
      assert (Hf : quote_fills q (Order.mk Order.BUY LIMIT t v 101) = true)
        by (by apply quote_fills_iff).
      rewrite Hf. reflexivity.
    + by apply Hstay.
  - intros quotes t v pos c om Hall. subst om.
    induction Hall as [|q quotes Hask _ IH]; [done|].
    cbn [fold_left]. by rewrite Hstay.
Qed.

(** A ledger with cash 10000 and a pending buy limit of 2 at 101 meets a
    quote of bid 99 and ask 100: the order fills in full. *)
Lemma quote_matching_witness :
  (QuoteTick.ask (QuoteTick.mk 1 99 100 1) <= 101)%Q
  /\ handleQuoteTick
       (submit (mk [] 0 10000) (Order.mk Order.BUY LIMIT 0 2 101))
       (QuoteTick.mk 1 99 100 1)
     = mk [] (0 + 2)%Q (10000 - 2 * 101)%Q.
Proof.
  assert (H : (QuoteTick.ask (QuoteTick.mk 1 99 100 1) <= 101)%Q)
    by (cbn; lra).
  split; [exact H|].
  exact (proj1 (proj1 (proj2 (proj2 (proj2 quote_matching)))
                  (QuoteTick.mk 1 99 100 1) 0 2%Q 0%Q 10000%Q) H).
Defined.

End LedgerFacts.

(** ** The bar aggregator *)

Module BarFacts.
Import BarAggregator BarSpec.

Lemma window_start_exact (ts w : Z) :
  uint64_range ts -> uint64_range w -> w <> 0 ->
  wrap64 (wrap64 (ts / w) * w) = ts / w * w.
Proof.
  unfold uint64_range, wrap64. intros Hts Hw Hw0.
  assert (0 <= ts / w) by (apply Z.div_pos; lia).
  assert (w * (ts / w) <= ts) by (apply Z.mul_div_le; lia).
  assert (ts / w <= ts) by nia.
  rewrite (Z.mod_small (ts / w)) by lia.
  apply Z.mod_small. nia.
Qed.

Lemma wrap64_range z : uint64_range (wrap64 z).
Proof. unfold uint64_range, wrap64. apply Z.mod_pos_bound. lia. Qed.

Lemma wrap64_small z : uint64_range z -> wrap64 z = z.
Proof. unfold uint64_range, wrap64. intros H. by apply Z.mod_small. Qed.

Lemma seeded_ok w ws tick : uint64_range ws -> bar_ok w (seeded w ws tick).
Proof.
  intros Hws. unfold bar_ok, seeded. cbn.
  rewrite Q.min_id, Q.max_id. repeat split; try apply Qle_refl; apply Hws.
Qed.

Lemma extended_ok w bar tick : bar_ok w bar -> bar_ok w (extended bar tick).
Proof.
  unfold bar_ok, extended. cbn. intros (Hlo & Hhi & Hst & Hend).
  split; [|split; [|by split]].
  - apply Q.min_le_compat_r.
    eapply Qle_trans; [exact Hlo|apply Q.le_min_l].
  - apply Q.max_le_compat_r.
    eapply Qle_trans; [apply Q.le_max_l|exact Hhi].
Qed.

(** What [update] computes, by the branch it takes. *)
Lemma update_cases agg tick :
  windowSize agg <> 0 ->
  let tickWindow :=
    wrap64 (wrap64 (Tick.timestamp tick / windowSize agg)
            * windowSize agg) in
  match currentBar agg with
  | Some bar =>
      if tickWindow =? currentWindow agg then
        update agg tick
        = Some (None, mk (windowSize agg) (currentWindow agg)
                         (Some (extended bar tick)))
      else
        update agg tick
        = Some (Some bar, mk (windowSize agg) tickWindow
                             (Some (seeded (windowSize agg) tickWindow tick)))
  | None =>
      update agg tick
      = Some (None, mk (windowSize agg) tickWindow
                       (Some (seeded (windowSize agg) tickWindow tick)))
  end.
Proof.
  intros Hw tickWindow. unfold update.
  apply Z.eqb_neq in Hw. rewrite Hw. fold tickWindow.
  destruct (currentBar agg) as [bar|] eqn:Hbar.
  - rewrite bool_decide_eq_true_2 by eauto.
    destruct (tickWindow =? currentWindow agg); cbn [negb orb]; [|done].
    unfold extended. by rewrite std_max_Qmax, std_min_Qmin.
  - rewrite bool_decide_eq_false_2 by (intros [? ?]; done). done.
Qed.

Lemma inv_new w : inv w (new w).
Proof. split; [done|]. intros bar Hbar. discriminate. Qed.

Lemma inv_update w agg tick r agg' :
  inv w agg -> update agg tick = Some (r, agg') ->
  inv w agg' /\ forall bar, r = Some bar -> bar_ok w bar.
Proof.
  intros [Hw Hbar] Hup.
  assert (Hw0 : windowSize agg <> 0).
  { intros H0. unfold update in Hup. by rewrite H0 in Hup. }
  pose proof (update_cases agg tick Hw0) as Hc. cbv zeta in Hc.
  destruct (currentBar agg) as [bar|] eqn:Hcur.
  - destruct (Hbar bar eq_refl) as [Hstart Hok].
    destruct (_ =? _) eqn:Heq; rewrite Hc in Hup;
      injection Hup as <- <-.
    + split; [|done]. split; [done|]. cbn. intros b [= <-].
      split; [done|]. by apply extended_ok.
    + split; [|by intros b [= <-]]. split; [done|]. cbn. intros b [= <-].
      split; [done|]. rewrite Hw. apply seeded_ok, wrap64_range.
  - rewrite Hc in Hup. injection Hup as <- <-.
    split; [|done]. split; [done|]. cbn. intros b [= <-].
    split; [done|]. rewrite Hw. apply seeded_ok, wrap64_range.
Qed.

Lemma inv_feed w ticks agg agg' :
  inv w agg -> feed agg ticks = Some agg' -> inv w agg'.
Proof.
  revert agg. induction ticks as [|tick ticks IH]; intros agg Hinv; cbn.
  - by intros [= <-].
  - destruct (update agg tick) as [[r agg1]|] eqn:Hup; [|done].
    apply IH. by destruct (inv_update w agg tick r agg1).
Qed.

Lemma reachable_inv w agg : reachable w agg -> inv w agg.
Proof. intros [ticks H]. eapply inv_feed; [apply inv_new|exact H]. Qed.

(** C3. Transition rule of [update], for a window size [w > 0] and a tick
    whose window starts at [windowStart = floor(timestamp / w) * w]: with
    no bar in progress, or one that starts elsewhere, [update] returns the
    bar in progress (or nothing) and opens a bar with all four prices at
    the tick's price, the tick's volume, start [windowStart] and end
    [windowStart + w] modulo 2^64 (which is [windowStart + w] when that is
    below 2^64); otherwise it returns nothing and extends the bar in
    progress by max, min, last price and added volume.  With [w = 60000]
    and ticks at 1000 (price 10), 59000 (price 12) and 61000 (price 9), the
    first two updates return nothing, the third returns the bar
    (10, 12, 10, 12) with the first two volumes added, and [flush] then
    returns the bar seeded from the third tick. *)
Theorem update_transition :
  (forall (w : Z) (agg : t) (tick : Tick.t),
     uint64_range w -> w <> 0 -> reachable w agg ->
     uint64_range (Tick.timestamp tick) ->
     let windowStart := Tick.timestamp tick / w * w in
     let p := Tick.price tick in
     ((currentBar agg = None
       \/ exists bar, currentBar agg = Some bar
                      /\ windowStart <> Bar.startTimestamp bar) ->
      update agg tick
      = Some (currentBar agg,
              mk w windowStart
                 (Some (Bar.mk windowStart (wrap64 (windowStart + w))
                               p p p p (Tick.volume tick))))
      /\ (windowStart + w < 2 ^ 64 ->
          wrap64 (windowStart + w) = windowStart + w))
     /\ (forall bar,
          currentBar agg = Some bar ->
          windowStart = Bar.startTimestamp bar ->
          update agg tick
          = Some (None,
                  mk w windowStart
                     (Some (Bar.mk (Bar.startTimestamp bar)
                                   (Bar.endTimestamp bar)
                                   (Bar.open bar)
                                   (Qmax (Bar.high bar) p)
                                   (Qmin (Bar.low bar) p)
                                   p
                                   (Bar.volume bar + Tick.volume tick)%Q)))))
  /\ (forall v1 v2 v3 : Q,
       exists a1 a2 a3,
         update (new 60000) (Tick.mk 1000 10 v1) = Some (None, a1)
         /\ update a1 (Tick.mk 59000 12 v2) = Some (None, a2)
         /\ update a2 (Tick.mk 61000 9 v3)
            = Some (Some (Bar.mk 0 60000 10 12 10 12 (v1 + v2)%Q), a3)
         /\ flush a3 = Some (Bar.mk 60000 120000 9 9 9 9 v3)).
Proof.
  split.
  - intros w agg tick Hw Hw0 Hreach Hts windowStart p.
    destruct (reachable_inv w agg Hreach) as [Hsize Hbar].
    assert (Hsize0 : windowSize agg <> 0) by by rewrite Hsize.
    pose proof (update_cases agg tick Hsize0) as Hc. cbv zeta in Hc.
    rewrite Hsize in Hc. rewrite (window_start_exact _ _ Hts Hw Hw0) in Hc.
    fold windowStart in Hc.
    assert (Hws : 0 <= windowStart).
    { unfold windowStart. destruct Hts, Hw.
      apply Z.mul_nonneg_nonneg; [apply Z.div_pos|]; lia. }
    split.
    + intros Hnew. split.
      * destruct Hnew as [Hnone|(bar & Hsome & Hne)].
        -- by rewrite Hnone in Hc |- *.
        -- rewrite Hsome in Hc |- *.
           destruct (Hbar bar Hsome) as [Hcw _]. rewrite Hcw in Hc.
           apply Z.eqb_neq in Hne. rewrite Hne in Hc. exact Hc.
      * intros Hfit. apply wrap64_small. destruct Hw. split; lia.
    + intros bar Hsome Heq. rewrite Hsome in Hc.
      destruct (Hbar bar Hsome) as [Hcw _]. rewrite Hcw in Hc.
      apply Z.eqb_eq in Heq as Heqb. rewrite Heqb in Hc.
      rewrite Hc. unfold extended. by rewrite Heq.
  - intros v1 v2 v3. do 3 eexists. repeat split; reflexivity.
Qed.

(** The hypotheses of the transition rule hold of a new aggregator of
    window size 60000 and a tick at 1000, which opens the bar of the window
    from 0 to 60000. *)
Lemma update_transition_witness :
  uint64_range 60000 /\ 60000 <> 0 /\ reachable 60000 (new 60000)
  /\ uint64_range 1000
  /\ update (new 60000) (Tick.mk 1000 10 5)
     = Some (None,
             mk 60000 0 (Some (Bar.mk 0 60000 10 10 10 10 5))).
Proof.
  assert (Hr : uint64_range 60000) by (unfold uint64_range; lia).
  assert (Ht : uint64_range 1000) by (unfold uint64_range; lia).
  assert (Hn : (60000 <> 0)%Z) by lia.
  assert (Hreach : reachable 60000 (new 60000)) by (by exists []).
  split; [exact Hr|]. split; [exact Hn|]. split; [exact Hreach|].
  split; [exact Ht|].
  exact (proj1 (proj1 (proj1 update_transition 60000 (new 60000)
                         (Tick.mk 1000 10 5) Hr Hn Hreach Ht)
                      (or_introl eq_refl))).
Defined.

(** With window size 2^63 and a tick at 2^63 the window starts at 2^63 and
    the bar's end wraps to 0: it is not start plus window size.  With
    window size 0 the update divides by zero. *)
Lemma update_end_wraps :
  let w := 2 ^ 63 in
  let tick := Tick.mk (2 ^ 63) 1 1 in
  let windowStart := Tick.timestamp tick / w * w in
  update (new 0) tick = None
  /\ uint64_range w /\ uint64_range (Tick.timestamp tick)
  /\ update (new w) tick
     = Some (None,
             mk w windowStart (Some (Bar.mk windowStart 0 1 1 1 1 1)))
  /\ update (new w) tick
     <> Some (None,
             mk w windowStart
                (Some (Bar.mk windowStart (windowStart + w) 1 1 1 1 1))).
Proof.
  cbv zeta. split; [reflexivity|].
  split; [unfold uint64_range; cbn; lia|].
  split; [unfold uint64_range; cbn; lia|].
  split; [reflexivity|]. intros H. discriminate H.
Qed.

(** C10. Every bar in progress of an aggregator of window size [w], and so
    every bar that [update] or [flush] returns, has its low at most the
    open and the close, its high at least both, and its end at start plus
    [w] modulo 2^64 (start plus [w] itself when that is below 2^64).  The
    bar an [update] leaves in progress, seeded or extended, has that shape
    again. *)
Theorem bar_invariant (w : Z) (agg : t) :
  uint64_range w -> reachable w agg ->
  (forall bar, flush agg = Some bar ->
     bar_ok w bar
     /\ (Bar.startTimestamp bar + w < 2 ^ 64 ->
         Bar.endTimestamp bar = Bar.startTimestamp bar + w))
  /\ (forall tick r agg',
       update agg tick = Some (r, agg') ->
       (forall bar, r = Some bar -> bar_ok w bar)
       /\ (forall bar, flush agg' = Some bar -> bar_ok w bar)
       /\ reachable w agg').
Proof.
  intros Hw Hreach. pose proof (reachable_inv w agg Hreach) as Hinv.
  split.
  - intros bar Hbar. destruct Hinv as [_ Hcur].
    destruct (Hcur bar Hbar) as [_ Hok]. split; [exact Hok|].
    destruct Hok as (_ & _ & Hst & Hend). intros Hfit.
    rewrite Hend. apply wrap64_small.
    destruct Hw, Hst. split; lia.
  - intros tick r agg' Hup.
    destruct (inv_update w agg tick r agg' Hinv Hup) as [[_ Hcur'] Hr].
    split; [exact Hr|]. split.
    + intros bar Hbar. by destruct (Hcur' bar Hbar).
    + destruct Hreach as [ticks Hfeed]. exists (ticks ++ [tick]).
      revert Hfeed. generalize (new w). clear -Hup.
      induction ticks as [|tk ticks IH]; intros a; cbn.
      * intros [= ->]. by rewrite Hup.
      * destruct (update a tk) as [[? a1]|]; [apply IH|done].
Qed.

(** The invariant at work on an aggregator of window size 60000 that has
    seen a tick at 1000 with price 10: its bar in progress has the shape. *)
Lemma bar_invariant_witness :
  uint64_range 60000
  /\ reachable 60000
       (mk 60000 0 (Some (Bar.mk 0 60000 10 10 10 10 5)))
  /\ bar_ok 60000 (Bar.mk 0 60000 10 10 10 10 5).
Proof.
  assert (Hr : uint64_range 60000) by (unfold uint64_range; lia).
  assert (Hreach : reachable 60000
                     (mk 60000 0 (Some (Bar.mk 0 60000 10 10 10 10 5))))
    by (by exists [Tick.mk 1000 10 5]).
  split; [exact Hr|]. split; [exact Hreach|].
  exact (proj1 (proj1 (bar_invariant 60000 _ Hr Hreach) _ eq_refl)).
Defined.

(** With window size 2^64 - 1 and a tick at 2^64 - 1 the bar in progress,
    which [flush] returns, starts at 2^64 - 1 and ends at 2^64 - 2: its end
    is not its start plus the window size. *)
Lemma bar_end_wraps :
  let w := 2 ^ 64 - 1 in
  exists agg bar,
    update (new w) (Tick.mk (2 ^ 64 - 1) 1 1) = Some (None, agg)
    /\ flush agg = Some bar
    /\ Bar.startTimestamp bar = 2 ^ 64 - 1
    /\ Bar.endTimestamp bar = 2 ^ 64 - 2
    /\ Bar.endTimestamp bar <> Bar.startTimestamp bar + w.
Proof.
  cbv zeta. do 2 eexists.
  split; [reflexivity|]. split; [reflexivity|].
  split; [reflexivity|]. split; [reflexivity|].
  intros H. vm_compute in H. discriminate H.
Qed.

End BarFacts.

(** ** The statistics collector *)

Module StatsFacts.
Import StatsCollector StatsSpec.

Lemma returns_of_snoc values v :
  returns_of (values ++ [v])
  = match last values with
    | Some prev => returns_of values ++ [return_of prev v]
    | None => returns_of values
    end.
Proof.
  unfold returns_of. induction values as [|a [|b values] IH]; [done..|].
  change (last (a :: b :: values)) with (last (b :: values)).
  cbn [app tail zip_with] in *. rewrite IH.
  by destruct (last (b :: values)).
Qed.

Lemma recordPnL_pnlSeries sc v :
  pnlSeries (recordPnL sc v) = pnlSeries sc ++ [v].
Proof. reflexivity. Qed.

Lemma recordPnL_returnsSeries sc v :
  returnsSeries sc = returns_of (pnlSeries sc) ->
  returnsSeries (recordPnL sc v) = returns_of (pnlSeries (recordPnL sc v)).
Proof.
  intros H. rewrite recordPnL_pnlSeries, returns_of_snoc.
  unfold recordPnL. cbn [returnsSeries]. rewrite H.
  by destruct (last (pnlSeries sc)).
Qed.

Lemma recordPnL_all values sc :
  returnsSeries sc = returns_of (pnlSeries sc) ->
  let sc' := fold_left recordPnL values sc in
  pnlSeries sc' = pnlSeries sc ++ values
  /\ returnsSeries sc' = returns_of (pnlSeries sc')
  /\ statsFunction sc' = statsFunction sc.
Proof.
  revert sc. induction values as [|v values IH]; intros sc H; cbn.
  - by rewrite app_nil_r.
  - destruct (IH (recordPnL sc v) (recordPnL_returnsSeries sc v H))
      as (Hp & Hr & Hs).
    split; [by rewrite Hp, recordPnL_pnlSeries, <- app_assoc|].
    split; [exact Hr|]. by rewrite Hs.
Qed.

Lemma returns_of_length values :
  length (returns_of values) = (length values - 1)%nat.
Proof.
  unfold returns_of. rewrite length_zip_with.
  destruct values as [|a values]; [done|]. cbn [tail length]. lia.
Qed.

Lemma returns_of_lookup values i :
  (i < length (returns_of values))%nat ->
  exists a b,
    values !! i = Some a /\ values !! S i = Some b
    /\ returns_of values !! i = Some (return_of a b).
Proof.
  rewrite returns_of_length. intros Hi.
  destruct (lookup_lt_is_Some_2 values i) as [a Ha]; [lia|].
  destruct (lookup_lt_is_Some_2 values (S i)) as [b Hb]; [lia|].
  exists a, b. split; [done|]. split; [done|].
  unfold returns_of. rewrite lookup_zip_with, lookup_tail, Ha, Hb. done.
Qed.

(** C5. After any sequence of [recordPnL] calls on a new collector the
    value series is the sequence of recorded values, the return series has
    [max(0, n - 1)] entries for [n] values, and its entry [i] is
    [(value (i+1) - value i) / (|value i| + 1e-8)]. *)
Theorem series_invariant (values : list Q) :
  let sc := fold_left recordPnL values new in
  pnlSeries sc = values
  /\ Z.of_nat (length (returnsSeries sc))
     = Z.max 0 (Z.of_nat (length (pnlSeries sc)) - 1)
  /\ forall i : nat,
       (i < length (returnsSeries sc))%nat ->
       exists a b,
         pnlSeries sc !! i = Some a
         /\ pnlSeries sc !! S i = Some b
         /\ returnsSeries sc !! i
            = Some ((b - a) / (Qabs a + (1 # 100000000)))%Q.
Proof.
  intros sc. destruct (recordPnL_all values new eq_refl) as (Hp & Hr & _).
  fold sc in Hp, Hr. cbn in Hp. split; [exact Hp|]. rewrite Hr. split.
  - rewrite returns_of_length. lia.
  - apply returns_of_lookup.
Qed.

(** After the values 100 and 110 the return series has one entry, the
    return from 100 to 110. *)
Lemma series_invariant_witness :
  (0 < length (returnsSeries (fold_left recordPnL [100; 110]%Q new)))%nat
  /\ exists a b,
       pnlSeries (fold_left recordPnL [100; 110]%Q new) !! 0%nat = Some a
       /\ pnlSeries (fold_left recordPnL [100; 110]%Q new) !! 1%nat = Some b
       /\ returnsSeries (fold_left recordPnL [100; 110]%Q new) !! 0%nat
          = Some ((b - a) / (Qabs a + (1 # 100000000)))%Q.
Proof.
  assert (H : (0 < length (returnsSeries
                            (fold_left recordPnL [100; 110]%Q new)))%nat)
    by (cbn; lia).
  split; [exact H|].
  exact (proj2 (proj2 (series_invariant [100; 110]%Q)) 0%nat H).
Defined.

(** The loop of [computeStats] over a list of entries with distinct
    names. *)
Lemma computeStats_loop v (l : list (string * StatsFunction)) acc :
  NoDup l.*1 ->
  let r := fold_left (computeStats_body v) l acc in
  r.2 = rev l.*1 ++ acc.2
  /\ forall n,
       r.1 !! n
       = match (list_to_map l : gmap string StatsFunction) !! n with
         | Some f => Some (f v)
         | None => acc.1 !! n
         end.
Proof.
  revert acc. induction l as [|[k f] l IH]; intros acc Hnd.
  - done.
  - rewrite fmap_cons in Hnd |- *. cbn [fst] in Hnd |- *.
    apply NoDup_cons in Hnd as [Hk Hnd].
    destruct (IH (computeStats_body v acc (k, f)) Hnd) as [Htr Hres].
    cbv zeta in Htr, Hres |- *. cbn [fold_left].
    split.
    + rewrite Htr. unfold computeStats_body. cbn [rev fst snd].
      by rewrite <- app_assoc.
    + intros n. rewrite Hres. unfold computeStats_body.
      cbn [list_to_map foldr fst snd uncurry].
      destruct (decide (k = n)) as [->|Hne].
      * rewrite lookup_insert_eq.
        rewrite (not_elem_of_list_to_map_1 _ _ Hk).
        by rewrite lookup_insert_eq.
      * rewrite !lookup_insert_ne by done. reflexivity.
Qed.

(** C7. With fewer than two recorded values [computeStats] returns the
    empty map and calls no statistic, whatever is registered; with two or
    more it calls the function of every registered name exactly once and
    returns the map that has, under each registered name and no other, the
    value of its function. *)
Theorem computeStats_all_or_nothing (sc : t) :
  computeStats sc = (computeStats_traced sc).1
  /\ ((length (pnlSeries sc) < 2)%nat ->
      computeStats_traced sc = (∅, []))
  /\ ((2 <= length (pnlSeries sc))%nat ->
      computeStats sc = (fun f => f (view sc)) <$> statsFunction sc
      /\ dom (computeStats sc) = dom (statsFunction sc)
      /\ (computeStats_traced sc).2 ≡ₚ (map_to_list (statsFunction sc)).*1
      /\ NoDup (computeStats_traced sc).2
      /\ forall n, n ∈ (computeStats_traced sc).2
                   <-> is_Some (statsFunction sc !! n)).
Proof.
  split; [done|]. unfold computeStats, computeStats_traced. split.
  - intros Hlt. apply Nat.ltb_lt in Hlt. by rewrite Hlt.
  - intros Hge. apply Nat.ltb_ge in Hge. rewrite Hge.
    pose proof (NoDup_fst_map_to_list (statsFunction sc)) as Hnd.
    destruct (computeStats_loop (view sc) _ (∅, []) Hnd) as [Htr Hres].
    cbv zeta in Htr, Hres. rewrite app_nil_r in Htr.
    assert (Hmap : (fold_left (computeStats_body (view sc))
                      (map_to_list (statsFunction sc)) (∅, [])).1
                   = (fun f => f (view sc)) <$> statsFunction sc).
    { apply map_eq. intros n. rewrite Hres, lookup_fmap.
      rewrite list_to_map_to_list.
      destruct (statsFunction sc !! n); [done|apply lookup_empty]. }
    split; [exact Hmap|]. split; [rewrite Hmap; apply dom_fmap_L|].
    rewrite Htr, <- Permutation_rev. split; [done|]. split; [done|].
    intros n. rewrite <- Permutation_rev.
    by rewrite <- elem_of_dom, dom_alt, elem_of_list_to_set.
Qed.

(** A collector with one statistic, the last value: with the values 1 and
    2 recorded [computeStats] has the value of that statistic under its
    name, with only 1 recorded the loop does not run. *)
Lemma computeStats_witness :
  (2 <= length (pnlSeries
                  (recordPnL (recordPnL (addStat new "Last" last_value) 1)
                             2)))%nat
  /\ computeStats (recordPnL (recordPnL (addStat new "Last" last_value) 1) 2)
     = (fun f => f (view (recordPnL
                            (recordPnL (addStat new "Last" last_value) 1) 2)))
       <$> statsFunction
             (recordPnL (recordPnL (addStat new "Last" last_value) 1) 2)
  /\ (length (pnlSeries (recordPnL (addStat new "Last" last_value) 1))
      < 2)%nat
  /\ computeStats_traced (recordPnL (addStat new "Last" last_value) 1)
     = (∅, []).
Proof.
  assert (H2 : (2 <= length (pnlSeries
                  (recordPnL (recordPnL (addStat new "Last" last_value) 1)
                             2)))%nat) by (vm_compute; lia).
  assert (H1 : (length (pnlSeries
                  (recordPnL (addStat new "Last" last_value) 1)) < 2)%nat)
    by (vm_compute; lia).
  split; [exact H2|]. split.
  - exact (proj1 (proj2 (proj2 (computeStats_all_or_nothing _)) H2)).
  - split; [exact H1|].
    exact (proj1 (proj2 (computeStats_all_or_nothing _)) H1).
Defined.

(** The same collector, evaluated: the result maps "Last" to 2, and the
    function was called once. *)
Lemma computeStats_example :
  computeStats_traced
    (recordPnL (recordPnL (addStat new "Last" last_value) 1) 2)
  = ({[ "Last"%string := 2%Q ]}, ["Last"%string]).
Proof. vm_compute. reflexivity. Qed.

Lemma addStat_held sc name f :
  statsFunction (addStat sc name f) !! name
  = Some (default f (statsFunction sc !! name)).
Proof.
  unfold addStat. case_bool_decide as Hin.
  - destruct Hin as [h Hh]. by rewrite Hh.
  - cbn. rewrite lookup_insert_eq.
    destruct (statsFunction sc !! name) eqn:E; [|done].
    exfalso. apply Hin. eauto.
Qed.

Lemma addStat_again sc name f g :
  addStat (addStat sc name f) name g = addStat sc name f.
Proof.
  unfold addStat at 1. rewrite bool_decide_eq_true_2; [done|].
  rewrite addStat_held. eauto.
Qed.

(** C8. First registration wins: registering [g] under a name just
    registered with [f] changes nothing, and the registry holds under that
    name the function it held before, or [f] when it held none; on a new
    collector it holds [f]. *)
Theorem addStat_first_wins (sc : t) (name : string) (f g : StatsFunction) :
  addStat (addStat sc name f) name g = addStat sc name f
  /\ statsFunction (addStat (addStat sc name f) name g) !! name
     = Some (default f (statsFunction sc !! name))
  /\ statsFunction (addStat (addStat new name f) name g) !! name = Some f.
Proof.
  split; [apply addStat_again|].
  split; rewrite addStat_again, addStat_held; [done|].
  unfold new. cbn [statsFunction]. by rewrite lookup_empty.
Qed.

End StatsFacts.

(** ** The scheduler *)

Module EngineFacts.
Import BacktestEngine EngineSpec.

Lemma deliver_statistics ctx callback :
  StrategyContext.statistics (StrategyContext.deliver ctx callback)
  = StrategyContext.statistics ctx.
Proof. unfold StrategyContext.deliver. by destruct (callback _ _). Qed.

Lemma quote_iteration_records ctx q :
  StatsCollector.pnlSeries
    (StrategyContext.statistics (quote_iteration ctx q))
  = StatsCollector.pnlSeries (StrategyContext.statistics ctx)
    ++ [valuation (quote_iteration ctx q) (mid q)].
Proof.
  unfold quote_iteration, valuation, mid, OrderManager.getPnL.
  cbn. by rewrite deliver_statistics.
Qed.

Lemma tick_iteration_records ctx tick :
  StatsCollector.pnlSeries
    (StrategyContext.statistics (tick_iteration ctx tick))
  = StatsCollector.pnlSeries (StrategyContext.statistics ctx)
    ++ [valuation (tick_iteration ctx tick) (Tick.price tick)].
Proof.
  unfold tick_iteration, valuation, OrderManager.getPnL.
  cbn. by rewrite deliver_statistics.
Qed.

(** A loop of the worker records one valuation per event: that of the
    context the iteration ends in, at the price [at_price] of the event. *)
Lemma loop_records {E : Type}
    (step : StrategyContext.t -> E -> StrategyContext.t)
    (at_price : E -> Q) :
  (forall ctx ev,
     StatsCollector.pnlSeries (StrategyContext.statistics (step ctx ev))
     = StatsCollector.pnlSeries (StrategyContext.statistics ctx)
       ++ [valuation (step ctx ev) (at_price ev)]) ->
  forall events ctx,
    StatsCollector.pnlSeries
      (StrategyContext.statistics (fold_left step events ctx))
    = StatsCollector.pnlSeries (StrategyContext.statistics ctx)
      ++ zip_with (fun c ev => valuation c (at_price ev))
                  (states_after step ctx events) events.
Proof.
  intros Hstep events. induction events as [|ev events IH]; intros ctx.
  - cbn. by rewrite app_nil_r.
  - cbn [fold_left states_after zip_with].
    rewrite IH, Hstep, <- app_assoc. done.
Qed.

Lemma finalize_statistics ctx :
  StrategyContext.statistics (finalize ctx).1
  = StrategyContext.statistics ctx.
Proof. unfold finalize. cbn. apply deliver_statistics. Qed.

Section Workers.

Variable userStat : TimeFrame -> string -> StatsCollector.StatsFunction.

(** C9. The valuation that the worker records after a quote is that of
    the ledger as the matching of that quote leaves it, at the mid-price
    [(bid + ask) / 2]: cash plus position times the mid-price; after a
    trade tick it is the valuation at the tick's price.  So the value
    series of a worker that returns is the series it started with followed
    by one such valuation per event, in order. *)
Theorem valuation_recorded :
  (forall ctx q,
     let ctx' := quote_iteration ctx q in
     let om := StrategyContext.orderManager ctx' in
     StatsCollector.pnlSeries (StrategyContext.statistics ctx')
     = StatsCollector.pnlSeries (StrategyContext.statistics ctx)
       ++ [(OrderManager.cash om
            + OrderManager.position om
              * ((QuoteTick.bid q + QuoteTick.ask q) / 2))%Q])
  /\ (forall ctx tick,
       let ctx' := tick_iteration ctx tick in
       let om := StrategyContext.orderManager ctx' in
       StatsCollector.pnlSeries (StrategyContext.statistics ctx')
       = StatsCollector.pnlSeries (StrategyContext.statistics ctx)
         ++ [(OrderManager.cash om
              + OrderManager.position om * Tick.price tick)%Q])
  /\ (forall e ctx,
       let started :=
         StrategyContext.deliver ctx
           (Strategy.onStart (StrategyContext.strategy ctx)) in
       (Strategy.isQuoteStrategy (StrategyContext.strategy ctx) = true ->
        exists r,
          worker e ctx = Returned r
          /\ StatsCollector.pnlSeries (StrategyContext.statistics r.1)
             = StatsCollector.pnlSeries (StrategyContext.statistics ctx)
               ++ zip_with (fun c q => valuation c (mid q))
                    (states_after quote_iteration started (quoteData e))
                    (quoteData e))
       /\ (Strategy.isQuoteStrategy (StrategyContext.strategy ctx) = false ->
           data e <> [] ->
           exists r,
             worker e ctx = Returned r
             /\ StatsCollector.pnlSeries (StrategyContext.statistics r.1)
                = StatsCollector.pnlSeries (StrategyContext.statistics ctx)
                  ++ zip_with (fun c tick => valuation c (Tick.price tick))
                       (states_after tick_iteration started (data e))
                       (data e))).
Proof.
  split; [exact quote_iteration_records|].
  split; [exact tick_iteration_records|].
  intros e ctx started. unfold worker. fold started.
  assert (Hst : StrategyContext.statistics started
                = StrategyContext.statistics ctx)
    by apply deliver_statistics.
  split.
  - intros ->. case_bool_decide as Hq; cbn [negb]; eexists;
      (split; [reflexivity|]); rewrite finalize_statistics.
    + rewrite Hq. cbn. by rewrite app_nil_r, Hst.
    + rewrite (loop_records quote_iteration mid quote_iteration_records).
      by rewrite Hst.
  - intros -> Hd. rewrite bool_decide_eq_false_2 by done. cbn [negb].
    eexists. split; [reflexivity|]. rewrite finalize_statistics.
    rewrite (loop_records tick_iteration Tick.price tick_iteration_records).
    by rewrite Hst.
Qed.

(** A quote of bid 99 and ask 101 delivered to an idle quote-based
    strategy holding cash 10000 records the valuation 10000. *)
Lemma valuation_recorded_witness :
  exists ctx,
    StrategyContext.new "s" idle_quote_strategy MINUTE 10000 = Some ctx
    /\ StatsCollector.pnlSeries
         (StrategyContext.statistics
            (quote_iteration ctx (QuoteTick.mk 0 99 101 1)))
       = [(10000 + 0 * ((99 + 101) / 2))%Q].
Proof.
  eexists. split; [reflexivity|].
  exact (proj1 valuation_recorded _ (QuoteTick.mk 0 99 101 1)).
Defined.

Lemma join_terminated_iff rs :
  join rs = Terminated <-> In Terminated rs.
Proof.
  induction rs as [|[r|] rs IH]; cbn.
  - split; [discriminate|tauto].
  - destruct (join rs) eqn:Hj.
    + split; [discriminate|]. intros [H|H]; [discriminate H|].
      apply IH in H. discriminate H.
    + split; [|done]. intros _. right. by apply IH.
  - split; [|done]. intros _. by left.
Qed.

(** When the worker of a strategy ends the process: the strategy is
    trade-based and there is no trade data. *)
Lemma worker_terminated_iff e ctx :
  worker e ctx = Terminated
  <-> Strategy.isQuoteStrategy (StrategyContext.strategy ctx) = false
      /\ data e = [].
Proof.
  unfold worker.
  destruct (Strategy.isQuoteStrategy (StrategyContext.strategy ctx)).
  - split; [|by intros [? _]].
    by destruct (negb (bool_decide (quoteData e = []))).
  - case_bool_decide as Hd; cbn [negb]; [done|].
    split; [discriminate|]. by intros [_ ?].
Qed.

Lemma runAll_terminated_iff e :
  runAll userStat e = Terminated
  <-> data e = []
      /\ exists ctx, In ctx (strategies e)
           /\ Strategy.isQuoteStrategy (StrategyContext.strategy ctx)
              = false.
Proof.
  unfold runAll.
  destruct (join _) eqn:Hj.
  - split; [discriminate|]. intros [Hd (ctx & Hin & Hq)].
    assert (Hj' : join (map (fun ctx => worker e (setup userStat ctx))
                            (strategies e)) = Terminated).
    { apply join_terminated_iff, in_map_iff. exists ctx.
      split; [|done]. by apply worker_terminated_iff. }
    rewrite Hj in Hj'. discriminate Hj'.
  - split; [|done]. intros _.
    apply join_terminated_iff, in_map_iff in Hj as (ctx & Hw & Hin).
    apply worker_terminated_iff in Hw as [Hq Hd]. eauto.
Qed.

(** An engine without data and an idle trade-based strategy: [runAll] ends
    the process. *)
Lemma runAll_without_trade_data :
  runAll userStat (mk [] [] [idle_context]) = Terminated.
Proof.
  apply runAll_terminated_iff. split; [done|].
  exists idle_context. split; [by left|done].
Qed.

(** C2, as the code has it.  The worker of a quote-based strategy whose
    quote series is empty does not end the process: it skips the loop,
    calls [onEnd] and [computeStats] and returns, with no value recorded.
    [runAll] ends the process exactly when the trade series is empty and a
    trade-based strategy is registered, whatever the quote series holds. *)
Theorem quote_strategy_without_data_returns e ctx :
  Strategy.isQuoteStrategy (StrategyContext.strategy ctx) = true ->
  quoteData e = [] ->
  worker e ctx
  = Returned (finalize (StrategyContext.deliver ctx
                          (Strategy.onStart (StrategyContext.strategy ctx))))
  /\ worker e ctx <> Terminated
  /\ (forall r, worker e ctx = Returned r ->
       StatsCollector.pnlSeries (StrategyContext.statistics r.1)
       = StatsCollector.pnlSeries (StrategyContext.statistics ctx))
  /\ (strategies e = [ctx] -> runAll userStat e <> Terminated)
  /\ (runAll userStat e = Terminated
      <-> data e = []
          /\ exists c, In c (strategies e)
               /\ Strategy.isQuoteStrategy (StrategyContext.strategy c)
                  = false).
Proof.
  intros Hq Hd.
  assert (Hw : worker e ctx
               = Returned (finalize (StrategyContext.deliver ctx
                            (Strategy.onStart
                               (StrategyContext.strategy ctx))))).
  { unfold worker. by rewrite Hq, Hd. }
  split; [exact Hw|]. split; [by rewrite Hw|]. split; [|split].
  - intros r. rewrite Hw. intros [= <-].
    by rewrite finalize_statistics, deliver_statistics.
  - intros Hs Ht. apply runAll_terminated_iff in Ht as [_ (c & Hin & Hc)].
    rewrite Hs in Hin. destruct Hin as [<-|[]]. congruence.
  - apply runAll_terminated_iff.
Qed.

End Workers.

(** An engine with trade data but no quote data and one idle quote-based
    strategy: the worker of that strategy does not end the process. *)
Lemma quote_strategy_without_data_witness :
  Strategy.isQuoteStrategy (StrategyContext.strategy idle_quote_context)
  = true
  /\ quoteData (mk [Tick.mk 0 100 1] [] [idle_quote_context]) = []
  /\ worker (mk [Tick.mk 0 100 1] [] [idle_quote_context])
            idle_quote_context
     <> Terminated.
Proof.
  split; [reflexivity|]. split; [reflexivity|].
  exact (proj1 (proj2 (quote_strategy_without_data_returns
                         (fun _ _ _ => 0%Q)
                         (mk [Tick.mk 0 100 1] [] [idle_quote_context])
                         idle_quote_context eq_refl eq_refl))).
Defined.

Lemma int_of_double_int (z : Z) :
  INT_MIN <= z <= INT_MAX -> int_of_double (inject_Z z) = Some z.
Proof.
  intros [Hlo Hhi]. unfold int_of_double. cbn [inject_Z Qnum Qden].
  rewrite Z.quot_1_r.
  apply Z.leb_le in Hlo, Hhi. by rewrite Hlo, Hhi.
Qed.

(** What registration does with an initial cash that is an integer in the
    range of [int]: the ledger holds exactly that cash. *)
Lemma seeding_integer e name strategy tf (z : Z) :
  INT_MIN <= z <= INT_MAX ->
  exists ctx,
    addStrategy e name strategy tf (inject_Z z)
    = Some (mk (data e) (quoteData e) (strategies e ++ [ctx]))
    /\ OrderManager.cash (StrategyContext.orderManager ctx) = inject_Z z
    /\ forall p,
         (OrderManager.getPnL (StrategyContext.orderManager ctx) p
          == inject_Z z)%Q.
Proof.
  intros Hz. unfold addStrategy, StrategyContext.new.
  rewrite (int_of_double_int z Hz). cbn. eexists. split; [reflexivity|].
  cbn. split; [reflexivity|]. intros p. unfold OrderManager.getPnL. cbn.
  unfold double_of_int. ring.
Qed.

(** C6, as the code has it.  Registering a strategy with initial cash
    10000.5 seeds its ledger with cash 10000: the constructor of the ledger
    takes an [int], and the conversion drops the fraction.  The valuation
    before any order is 10000 at every price, not 10000.5. *)
Theorem seeding_drops_fraction e name strategy tf :
  exists ctx,
    addStrategy e name strategy tf (20001 # 2)
    = Some (mk (data e) (quoteData e) (strategies e ++ [ctx]))
    /\ OrderManager.pendingOrders (StrategyContext.orderManager ctx) = []
    /\ OrderManager.cash (StrategyContext.orderManager ctx) = 10000%Q
    /\ ~ (OrderManager.cash (StrategyContext.orderManager ctx)
          == 20001 # 2)%Q
    /\ forall p,
         (OrderManager.getPnL (StrategyContext.orderManager ctx) p
          == 10000)%Q
         /\ ~ (OrderManager.getPnL (StrategyContext.orderManager ctx) p
               == 20001 # 2)%Q.
Proof.
  eexists. split; [reflexivity|]. cbn.
  split; [reflexivity|]. split; [reflexivity|]. split; [by intros H|].
  intros p. unfold OrderManager.getPnL. cbn.
  assert (H : (double_of_int 10000 + 0 * p == 10000)%Q)
    by (unfold double_of_int; ring).
  split; [exact H|]. rewrite H. by intros H'.
Qed.

End EngineFacts.

(** ** The ledger, continued *)

Module LedgerMore.
Import OrderManager LedgerFacts.

Lemma handleTick_body_fills tick om still o :
  handleTick_body tick (om, still) o
  = if tick_fills tick o then (execute om o, still) else (om, still ++ [o]).
Proof.
  unfold handleTick_body, tick_fills, Order.is_buy, Order.is_sell, Qge_bool.
  destruct (Order.side o); simpl; destruct (Qle_bool _ _); reflexivity.
Qed.

Lemma handleTick_loop tick l om still :
  fold_left (handleTick_body tick) l (om, still)
  = (fold_left execute (List.filter (tick_fills tick) l) om,
     still ++ List.filter (fun o => negb (tick_fills tick o)) l).
Proof.
  revert om still.
  induction l as [|o l IH]; intros om still; cbn [fold_left List.filter].
  - by rewrite app_nil_r.
  - rewrite handleTick_body_fills.
    destruct (tick_fills tick o); cbn [negb fold_left]; rewrite IH; [done|].
    by rewrite <- app_assoc.
Qed.

Lemma handleTick_eq om tick :
  handleTick om tick
  = let om' := fold_left execute
                 (List.filter (tick_fills tick) (pendingOrders om)) om in
    mk (List.filter (fun o => negb (tick_fills tick o)) (pendingOrders om))
       (position om') (cash om').
Proof. unfold handleTick. by rewrite handleTick_loop. Qed.

Lemma filter_twice {A} (f : A -> bool) (l : list A) :
  List.filter f (List.filter (fun x => negb (f x)) l) = []
  /\ List.filter (fun x => negb (f x)) (List.filter (fun x => negb (f x)) l)
     = List.filter (fun x => negb (f x)) l.
Proof.
  induction l as [|a l [IH1 IH2]]; [done|]. cbn [List.filter].
  destruct (f a) eqn:E; cbn [negb]; [done|].
  cbn [List.filter]. rewrite E. cbn [negb]. by rewrite IH1, IH2.
Qed.

(** Matching is idempotent: an event that has been matched fills nothing
    when it is matched again, so no order is ever filled twice by one
    event. *)
Theorem matching_idempotent (om : t) :
  (forall tick, handleTick (handleTick om tick) tick = handleTick om tick)
  /\ (forall quote,
       handleQuoteTick (handleQuoteTick om quote) quote
       = handleQuoteTick om quote).
Proof.
  split.
  - intros tick. rewrite (handleTick_eq (handleTick om tick)).
    rewrite (handleTick_eq om). cbn [pendingOrders position cash].
    destruct (filter_twice (tick_fills tick) (pendingOrders om)) as [-> ->].
    reflexivity.
  - intros quote. rewrite (handleQuoteTick_eq (handleQuoteTick om quote)).
    rewrite (handleQuoteTick_eq om). cbn [pendingOrders position cash].
    destruct (filter_twice (quote_fills quote) (pendingOrders om))
      as [-> ->].
    reflexivity.
Qed.

(** A quote whose bid and ask are both [p] matches as a trade at [p]. *)
Theorem locked_quote_matches_as_trade (om : t) (p : Q)
    (ts ts' : Z) (v v' : Q) :
  handleQuoteTick om (QuoteTick.mk ts p p v)
  = handleTick om (Tick.mk ts' p v').
Proof.
  rewrite handleQuoteTick_eq, handleTick_eq.
  assert (Hf : forall o, quote_fills (QuoteTick.mk ts p p v) o
                         = tick_fills (Tick.mk ts' p v') o).
  { intros o. unfold quote_fills, tick_fills. by destruct (Order.side o). }
  rewrite (filter_ext _ _ Hf).
  rewrite (filter_ext (fun o => negb (quote_fills _ o))
                      (fun o => negb (tick_fills (Tick.mk ts' p v') o)))
    by (intros o; by rewrite Hf).
  reflexivity.
Qed.

Lemma Forall_filter_keep {A} (P : A -> Prop) (f : A -> bool) (l : list A) :
  Forall P l -> Forall P (List.filter f l).
Proof.
  induction 1 as [|a l Ha _ IH]; cbn; [constructor|].
  destruct (f a); [by constructor|done].
Qed.

Lemma call_keeps_limit om c :
  Forall (fun o => Order.type o = LIMIT) (pendingOrders om) ->
  Forall (fun o => Order.type o = LIMIT) (pendingOrders (call om c)).
Proof.
  intros H. destruct c as [o|o|tick|quote]; cbn [call].
  - unfold submit. destruct (Order.type o) eqn:E.
    + by rewrite execute_pending.
    + cbn [pendingOrders]. apply Forall_app. split; [done|].
      by constructor.
  - by rewrite execute_pending.
  - rewrite handleTick_eq. cbn [pendingOrders]. by apply Forall_filter_keep.
  - rewrite handleQuoteTick_eq. cbn [pendingOrders].
    by apply Forall_filter_keep.
Qed.

(** Whatever is called on a ledger, in whatever order, from its
    construction on, its pending orders are all limit orders: a market
    order is never left pending. *)
Theorem pending_orders_are_limit (cash0 : Z) (calls : list ledger_call) :
  Forall (fun o => Order.type o = LIMIT)
         (pendingOrders (fold_left call calls (new cash0))).
Proof.
  assert (H : forall om,
             Forall (fun o => Order.type o = LIMIT) (pendingOrders om) ->
             Forall (fun o => Order.type o = LIMIT)
                    (pendingOrders (fold_left call calls om))).
  { induction calls as [|c calls IH]; intros om Hom; [done|].
    cbn [fold_left]. by apply IH, call_keeps_limit. }
  apply H. constructor.
Qed.

End LedgerMore.

(** ** The bar aggregator, continued *)

Module BarMore.
Import BarAggregator BarSpec BarRuns BarFacts.

Lemma extended_all_fields (ticks : list Tick.t) (bar : Bar.t) :
  let bar' := fold_left extended ticks bar in
  Bar.startTimestamp bar' = Bar.startTimestamp bar
  /\ Bar.endTimestamp bar' = Bar.endTimestamp bar
  /\ Bar.open bar' = Bar.open bar
  /\ Bar.high bar' = fold_left Qmax (map Tick.price ticks) (Bar.high bar)
  /\ Bar.low bar' = fold_left Qmin (map Tick.price ticks) (Bar.low bar)
  /\ Bar.close bar' = last_or (Bar.close bar) (map Tick.price ticks)
  /\ Bar.volume bar'
     = fold_left Qplus (map Tick.volume ticks) (Bar.volume bar).
Proof.
  revert bar. induction ticks as [|tick ticks IH]; intros bar; [done|].
  cbn [fold_left map]. destruct (IH (extended bar tick))
    as (H1 & H2 & H3 & H4 & H5 & H6 & H7).
  cbv zeta. rewrite H1, H2, H3, H4, H5, H6, H7. cbn.
  repeat split. unfold last_or. cbn [List.last map].
  destruct (map Tick.price ticks) eqn:E; [done|].
  revert E. generalize (Tick.price tick) (Bar.close bar).
  clear. intros a b _. revert q. induction l as [|x l IHl]; intros q; [done|].
  cbn [List.last] in *. apply IHl.
Qed.

(** Ticks of the window of the bar in progress only extend that bar: no
    bar is returned. *)
Lemma collect_same_window (w : Z) (ticks : list Tick.t) (agg : t)
    (bar : Bar.t) :
  uint64_range w -> w <> 0 ->
  windowSize agg = w -> currentBar agg = Some bar ->
  currentWindow agg = Bar.startTimestamp bar ->
  Forall (fun tick => uint64_range (Tick.timestamp tick)
                      /\ window_start w (Tick.timestamp tick)
                         = Bar.startTimestamp bar) ticks ->
  collect agg ticks
  = Some ([], mk w (Bar.startTimestamp bar)
                 (Some (fold_left extended ticks bar))).
Proof.
  intros Hw Hw0. revert agg bar.
  induction ticks as [|tick ticks IH]; intros agg bar Hsize Hcur Hcw Hall.
  - cbn. destruct agg; cbn in *. by subst.
  - apply Forall_cons in Hall as [[Hts Hwin] Hall]. cbn [collect fold_left].
    assert (Hsize0 : windowSize agg <> 0) by by rewrite Hsize.
    pose proof (update_cases agg tick Hsize0) as Hc. cbv zeta in Hc.
    rewrite Hcur, Hsize, (window_start_exact _ _ Hts Hw Hw0) in Hc.
    unfold window_start in Hwin. rewrite Hwin, Hcw, Z.eqb_refl in Hc.
    rewrite Hc.
    by rewrite (IH (mk w (Bar.startTimestamp bar) (Some (extended bar tick)))
                   (extended bar tick) eq_refl eq_refl eq_refl Hall).
Qed.

Lemma Qmax_cases (a b : Q) : Qmax a b = a \/ Qmax a b = b.
Proof.
  unfold Qmax, GenericMinMax.gmax. destruct (a ?= b)%Q; auto.
Qed.

Lemma Qmin_cases (a b : Q) : Qmin a b = a \/ Qmin a b = b.
Proof.
  unfold Qmin, GenericMinMax.gmin. destruct (a ?= b)%Q; auto.
Qed.

Lemma fold_Qmax_spec (l : list Q) (a : Q) :
  In (fold_left Qmax l a) (a :: l)
  /\ forall x, In x (a :: l) -> (x <= fold_left Qmax l a)%Q.
Proof.
  revert a. induction l as [|b l IH]; intros a; cbn [fold_left].
  - split; [by left|]. intros x [<-|[]]. apply Qle_refl.
  - destruct (IH (Qmax a b)) as [Hin Hle]. split.
    + destruct Hin as [Hin|Hin]; [|by right; right].
      rewrite <- Hin. destruct (Qmax_cases a b) as [->| ->];
        [by left|by right; left].
    + intros x [<-|[<-|Hx]].
      * eapply Qle_trans; [apply Q.le_max_l|]. apply Hle. by left.
      * eapply Qle_trans; [apply Q.le_max_r|]. apply Hle. by left.
      * apply Hle. by right.
Qed.

Lemma fold_Qmin_spec (l : list Q) (a : Q) :
  In (fold_left Qmin l a) (a :: l)
  /\ forall x, In x (a :: l) -> (fold_left Qmin l a <= x)%Q.
Proof.
  revert a. induction l as [|b l IH]; intros a; cbn [fold_left].
  - split; [by left|]. intros x [<-|[]]. apply Qle_refl.
  - destruct (IH (Qmin a b)) as [Hin Hle]. split.
    + destruct Hin as [Hin|Hin]; [|by right; right].
      rewrite <- Hin. destruct (Qmin_cases a b) as [->| ->];
        [by left|by right; left].
    + intros x [<-|[<-|Hx]].
      * eapply Qle_trans; [|apply Q.le_min_l]. apply Hle. by left.
      * eapply Qle_trans; [|apply Q.le_min_r]. apply Hle. by left.
      * apply Hle. by right.
Qed.

Lemma bar_eta (bar : Bar.t) :
  bar = Bar.mk (Bar.startTimestamp bar) (Bar.endTimestamp bar)
               (Bar.open bar) (Bar.high bar) (Bar.low bar) (Bar.close bar)
               (Bar.volume bar).
Proof. by destruct bar. Qed.

(** Window aggregation.  A tick that opens a window, followed by ticks of
    that window, leaves in progress the summary of them all: open the
    first price, close the last, high the greatest, low the least, volume
    the sum in arrival order; only the bar that was in progress before is
    returned, and the next tick of another window returns the summary. *)
Theorem window_summary (w : Z) (agg : t) (first : Tick.t)
    (rest : list Tick.t) :
  uint64_range w -> w <> 0 -> reachable w agg ->
  Forall (fun tick =>
            uint64_range (Tick.timestamp tick)
            /\ window_start w (Tick.timestamp tick)
               = window_start w (Tick.timestamp first)) (first :: rest) ->
  (currentBar agg = None
   \/ exists bar, currentBar agg = Some bar
                  /\ window_start w (Tick.timestamp first)
                     <> Bar.startTimestamp bar) ->
  let ws := window_start w (Tick.timestamp first) in
  let prices := map Tick.price rest in
  let summary :=
    Bar.mk ws (wrap64 (ws + w)) (Tick.price first)
           (fold_left Qmax prices (Tick.price first))
           (fold_left Qmin prices (Tick.price first))
           (last_or (Tick.price first) prices)
           (fold_left Qplus (map Tick.volume rest) (Tick.volume first)) in
  collect agg (first :: rest)
  = Some (option_list (currentBar agg), mk w ws (Some summary))
  /\ In (Bar.high summary) (Tick.price first :: prices)
  /\ In (Bar.low summary) (Tick.price first :: prices)
  /\ (forall p, In p (Tick.price first :: prices) ->
       (Bar.low summary <= p <= Bar.high summary)%Q)
  /\ (forall tick,
       uint64_range (Tick.timestamp tick) ->
       window_start w (Tick.timestamp tick) <> ws ->
       exists agg', update (mk w ws (Some summary)) tick
                    = Some (Some summary, agg')).
Proof.
  intros Hw Hw0 Hreach Hall Hnew ws prices summary.
  apply Forall_cons in Hall as [[Hts _] Hrest].
  destruct (reachable_inv w agg Hreach) as [Hsize Hbar].
  assert (Hsize0 : windowSize agg <> 0) by by rewrite Hsize.
  split; [|split; [|split; [|split]]].
  - cbn [collect].
    pose proof (update_cases agg first Hsize0) as Hc. cbv zeta in Hc.
    rewrite Hsize, (window_start_exact _ _ Hts Hw Hw0) in Hc.
    change (Tick.timestamp first / w * w) with ws in Hc.
    assert (Hup : update agg first
                  = Some (currentBar agg,
                          mk w ws (Some (seeded w ws first)))).
    { destruct Hnew as [Hnone|(bar & Hsome & Hne)].
      - by rewrite Hnone in Hc |- *.
      - rewrite Hsome in Hc |- *. destruct (Hbar bar Hsome) as [Hcw _].
        rewrite Hcw in Hc. apply Z.eqb_neq in Hne. fold ws in Hne.
        by rewrite Hne in Hc. }
    rewrite Hup.
    rewrite (collect_same_window w rest (mk w ws (Some (seeded w ws first)))
               (seeded w ws first) Hw Hw0 eq_refl eq_refl eq_refl Hrest).
    rewrite app_nil_r. cbn [Bar.startTimestamp seeded].
    destruct (extended_all_fields rest (seeded w ws first))
      as (H1 & H2 & H3 & H4 & H5 & H6 & H7). cbv zeta in *.
    rewrite (bar_eta (fold_left extended rest (seeded w ws first))).
    by rewrite H1, H2, H3, H4, H5, H6, H7.
  - apply fold_Qmax_spec.
  - apply fold_Qmin_spec.
  - intros p Hp. split; [by apply fold_Qmin_spec|by apply fold_Qmax_spec].
  - intros tick Htick Hother.
    pose proof (update_cases (mk w ws (Some summary)) tick Hw0) as Hc.
    cbv zeta in Hc. cbn [windowSize currentBar currentWindow] in Hc.
    rewrite (window_start_exact _ _ Htick Hw Hw0) in Hc.
    unfold window_start in Hother. apply Z.eqb_neq in Hother.
    rewrite Hother in Hc. eauto.
Qed.

(** A minute of three ticks after nothing: the bar in progress is their
    summary. *)
Lemma window_summary_witness :
  uint64_range 60000 /\ 60000 <> 0 /\ reachable 60000 (new 60000)
  /\ collect (new 60000)
       [Tick.mk 1000 10 1; Tick.mk 2000 12 2; Tick.mk 59000 11 3]
     = Some ([], mk 60000 0
                   (Some (Bar.mk 0 60000 10 12 10 11 (1 + 2 + 3)%Q))).
Proof.
  assert (Hr : uint64_range 60000) by (unfold uint64_range; lia).
  assert (Hn : (60000 <> 0)%Z) by lia.
  assert (Hreach : reachable 60000 (new 60000)) by (by exists []).
  split; [exact Hr|]. split; [exact Hn|]. split; [exact Hreach|].
  refine (proj1 (window_summary 60000 (new 60000) (Tick.mk 1000 10 1)
                   [Tick.mk 2000 12 2; Tick.mk 59000 11 3]
                   Hr Hn Hreach _ (or_introl eq_refl))).
  repeat constructor; unfold uint64_range; cbn; lia.
Defined.

(** The bar that an [update] leaves in progress, and what it returns. *)
Lemma update_in_progress (w : Z) (agg : t) (tick : Tick.t) :
  uint64_range w -> w <> 0 -> reachable w agg ->
  uint64_range (Tick.timestamp tick) ->
  exists r bar,
    update agg tick
    = Some (r, mk w (window_start w (Tick.timestamp tick)) (Some bar))
    /\ Bar.startTimestamp bar = window_start w (Tick.timestamp tick)
    /\ Bar.close bar = Tick.price tick
    /\ (Bar.low bar <= Tick.price tick <= Bar.high bar)%Q
    /\ (r = None \/
        r = currentBar agg
        /\ exists old, currentBar agg = Some old
             /\ Bar.startTimestamp old
                <> window_start w (Tick.timestamp tick)).
Proof.
  intros Hw Hw0 Hreach Hts.
  destruct (reachable_inv w agg Hreach) as [Hsize Hbar].
  assert (Hsize0 : windowSize agg <> 0) by by rewrite Hsize.
  pose proof (update_cases agg tick Hsize0) as Hc. cbv zeta in Hc.
  rewrite Hsize, (window_start_exact _ _ Hts Hw Hw0) in Hc.
  fold (window_start w (Tick.timestamp tick)) in Hc.
  destruct (currentBar agg) as [old|] eqn:Hcur.
  - destruct (Hbar old eq_refl) as [Hcw _]. rewrite Hcw in Hc.
    destruct (_ =? _) eqn:Heq.
    + apply Z.eqb_eq in Heq. rewrite <- Heq in Hc.
      exists None, (extended old tick). split; [exact Hc|].
      cbn. split; [by rewrite Heq|]. split; [done|].
      split; [split; [apply Q.le_min_r|apply Q.le_max_r]|by left].
    + apply Z.eqb_neq in Heq.
      exists (Some old), (seeded w (window_start w (Tick.timestamp tick)) tick).
      split; [exact Hc|]. cbn. split; [done|]. split; [done|].
      split; [split; apply Qle_refl|]. right. split; [done|].
      exists old. split; [done|]. congruence.
  - exists None, (seeded w (window_start w (Tick.timestamp tick)) tick).
    split; [exact Hc|]. cbn. split; [done|]. split; [done|].
    split; [split; apply Qle_refl|by left].
Qed.

Lemma window_start_bounds (w ts : Z) :
  0 < w -> window_start w ts <= ts < window_start w ts + w.
Proof.
  intros Hw. unfold window_start.
  pose proof (Z.mul_div_le ts w Hw).
  pose proof (Z.mul_succ_div_gt ts w Hw). lia.
Qed.

(** Every tick lands in the bar of its own window: after [update] the bar
    in progress starts at or before the tick's timestamp and less than a
    window size before it, closes at the tick's price and has the tick's
    price between its low and its high. *)
Theorem tick_in_its_bar (w : Z) (agg : t) (tick : Tick.t) :
  uint64_range w -> w <> 0 -> reachable w agg ->
  uint64_range (Tick.timestamp tick) ->
  exists r agg' bar,
    update agg tick = Some (r, agg')
    /\ flush agg' = Some bar
    /\ Bar.startTimestamp bar <= Tick.timestamp tick
       < Bar.startTimestamp bar + w
    /\ Bar.close bar = Tick.price tick
    /\ (Bar.low bar <= Tick.price tick <= Bar.high bar)%Q.
Proof.
  intros Hw Hw0 Hreach Hts.
  destruct (update_in_progress w agg tick Hw Hw0 Hreach Hts)
    as (r & bar & Hup & Hstart & Hclose & Hprice & _).
  exists r, (mk w (window_start w (Tick.timestamp tick)) (Some bar)), bar.
  split; [exact Hup|]. split; [done|]. rewrite Hstart.
  split; [|by split]. apply window_start_bounds. destruct Hw. lia.
Qed.

(** A tick at 125000 on a new aggregator of window size 60000 lands in the
    bar that starts at 120000. *)
Lemma tick_in_its_bar_witness :
  uint64_range 60000 /\ 60000 <> 0 /\ reachable 60000 (new 60000)
  /\ uint64_range 125000
  /\ exists r agg' bar,
       update (new 60000) (Tick.mk 125000 10 1) = Some (r, agg')
       /\ flush agg' = Some bar
       /\ Bar.startTimestamp bar <= 125000 < Bar.startTimestamp bar + 60000
       /\ Bar.close bar = 10%Q
       /\ (Bar.low bar <= 10 <= Bar.high bar)%Q.
Proof.
  assert (Hr : uint64_range 60000) by (unfold uint64_range; lia).
  assert (Ht : uint64_range 125000) by (unfold uint64_range; lia).
  assert (Hn : (60000 <> 0)%Z) by lia.
  assert (Hreach : reachable 60000 (new 60000)) by (by exists []).
  split; [exact Hr|]. split; [exact Hn|]. split; [exact Hreach|].
  split; [exact Ht|].
  exact (tick_in_its_bar 60000 (new 60000) (Tick.mk 125000 10 1)
           Hr Hn Hreach Ht).
Defined.

Lemma feed_snoc (agg agg' : t) (ticks : list Tick.t) (tick : Tick.t) :
  feed agg (ticks ++ [tick]) = Some agg' ->
  exists agg0 r, feed agg ticks = Some agg0
                 /\ update agg0 tick = Some (r, agg').
Proof.
  revert agg. induction ticks as [|t0 ticks IH]; intros agg; cbn.
  - destruct (update agg tick) as [[r a]|] eqn:Hup; [|done].
    intros [= <-]. eauto.
  - destruct (update agg t0) as [[r a]|]; [|done]. apply IH.
Qed.

(** With timestamps in order, a bar is completed only by a tick at or
    after its end: if the last tick was at or before the new one and the
    new one completes a bar, that bar holds the last tick, ends exactly a
    window size after its start, and ends at or before the new tick. *)
Theorem completed_bar_is_past (w : Z) (ticks : list Tick.t)
    (prev tick : Tick.t) (agg agg' : t) (bar : Bar.t) :
  uint64_range w -> w <> 0 ->
  uint64_range (Tick.timestamp prev) -> uint64_range (Tick.timestamp tick) ->
  feed (new w) (ticks ++ [prev]) = Some agg ->
  Tick.timestamp prev <= Tick.timestamp tick ->
  update agg tick = Some (Some bar, agg') ->
  Bar.startTimestamp bar <= Tick.timestamp prev
  /\ Bar.endTimestamp bar = Bar.startTimestamp bar + w
  /\ Tick.timestamp prev < Bar.endTimestamp bar <= Tick.timestamp tick.
Proof.
  intros Hw Hw0 Hprev Htick Hfeed Hle Hup.
  apply feed_snoc in Hfeed as (agg0 & r0 & Hfeed0 & Hup0).
  assert (Hreach0 : reachable w agg0) by (by exists ticks).
  assert (Hreach : reachable w agg).
  { exists (ticks ++ [prev]). revert Hfeed0 Hup0. generalize (new w).
    clear. induction ticks as [|t0 ticks IH]; intros a; cbn.
    - intros [= ->] ->. done.
    - destruct (update a t0) as [[? a1]|]; [apply IH|done]. }
  destruct (update_in_progress w agg tick Hw Hw0 Hreach Htick)
    as (r & bar1 & Hup' & _ & _ & _ & Hr).
  rewrite Hup in Hup'. injection Hup' as <- _.
  destruct Hr as [Hr|[Hr (old & Hold & Hne)]]; [discriminate Hr|].
  rewrite Hold in Hr. injection Hr as ->.
  destruct (reachable_inv w agg Hreach) as [_ Hbar].
  destruct (Hbar old Hold) as [_ (_ & _ & _ & Hend)].
  destruct (update_in_progress w agg0 prev Hw Hw0 Hreach0 Hprev)
    as (r0' & bar0 & Hup0' & Hstart0 & _).
  rewrite Hup0 in Hup0'. injection Hup0' as _ Hagg.
  rewrite Hagg in Hold. cbn [currentBar] in Hold. injection Hold as ->.
  rewrite Hstart0 in Hne, Hend |- *.
  assert (Hpos : 0 < w) by (destruct Hw; lia).
  pose proof (window_start_bounds w (Tick.timestamp prev) Hpos) as Hb0.
  pose proof (window_start_bounds w (Tick.timestamp tick) Hpos) as Hb1.
  assert (Hdiv : Tick.timestamp prev / w <= Tick.timestamp tick / w)
    by (apply Z.div_le_mono; lia).
  unfold window_start in *.
  assert (Hlt : Tick.timestamp prev / w < Tick.timestamp tick / w).
  { destruct (Z.eq_dec (Tick.timestamp prev / w) (Tick.timestamp tick / w))
      as [E|E]; [|lia]. rewrite E in Hne. done. }
  assert (Hnext : Tick.timestamp prev / w * w + w
                  <= Tick.timestamp tick / w * w) by nia.
  assert (Hfit : wrap64 (Tick.timestamp prev / w * w + w)
                 = Tick.timestamp prev / w * w + w).
  { apply wrap64_small. destruct Hprev, Htick.
    split; [|lia]. assert (0 <= Tick.timestamp prev / w)
      by (apply Z.div_pos; lia). nia. }
  rewrite Hend, Hfit. lia.
Qed.

(** Ticks at 1000 and then 61000: the second completes the bar of the
    first minute, which ends at 60000. *)
Lemma completed_bar_is_past_witness :
  uint64_range 60000 /\ 60000 <> 0
  /\ uint64_range 1000 /\ uint64_range 61000
  /\ 1000 <= 61000
  /\ Bar.endTimestamp (Bar.mk 0 60000 10 10 10 10 1) = 0 + 60000
  /\ 1000 < 60000 <= 61000.
Proof.
  assert (Hr : uint64_range 60000) by (unfold uint64_range; lia).
  assert (H1 : uint64_range 1000) by (unfold uint64_range; lia).
  assert (H2 : uint64_range 61000) by (unfold uint64_range; lia).
  assert (Hn : (60000 <> 0)%Z) by lia.
  assert (Hle : 1000 <= 61000) by lia.
  split; [exact Hr|]. split; [exact Hn|]. split; [exact H1|].
  split; [exact H2|]. split; [exact Hle|].
  exact (proj2 (completed_bar_is_past 60000 [] (Tick.mk 1000 10 1)
                  (Tick.mk 61000 9 1) _ _ (Bar.mk 0 60000 10 10 10 10 1)
                  Hr Hn H1 H2 eq_refl Hle eq_refl)).
Defined.

End BarMore.

(** ** Bar strategies *)

Module BarStrategyFacts.
Import BarAggregator BarSpec BarRuns BarFacts BarMore BarStrategyRuns.

Lemma delivered_collect bs ticks :
  delivered bs ticks
  = match collect (BarStrategy.aggregator bs) ticks with
    | Some (bars, agg) => Some (bars, BarStrategy.mk agg)
    | None => None
    end.
Proof.
  revert bs. induction ticks as [|tick ticks IH]; intros bs; cbn.
  - by destruct bs.
  - unfold BarStrategy.onTick.
    destruct (update (BarStrategy.aggregator bs) tick) as [[r agg]|]; [|done].
    rewrite IH. cbn. by destruct (collect agg ticks) as [[bars agg']|].
Qed.

(** A stream of ticks in range never makes [update] undefined on a
    reachable aggregator of non-zero window size; it returns at most one
    bar per tick, and none for the tick that finds no bar in progress. *)
Lemma collect_total (w : Z) (ticks : list Tick.t) (agg : t) :
  uint64_range w -> w <> 0 -> reachable w agg ->
  Forall (fun tick => uint64_range (Tick.timestamp tick)) ticks ->
  exists bars agg',
    collect agg ticks = Some (bars, agg')
    /\ reachable w agg'
    /\ (length bars <= length ticks)%nat
    /\ (currentBar agg = None -> ticks <> [] ->
        (length bars < length ticks)%nat)
    /\ (ticks <> [] -> is_Some (currentBar agg')).
Proof.
  intros Hw Hw0. revert agg.
  induction ticks as [|tick ticks IH]; intros agg Hreach Hall.
  - exists [], agg. cbn. repeat split; [done|lia|done..].
  - apply Forall_cons in Hall as [Hts Hall].
    destruct (update_in_progress w agg tick Hw Hw0 Hreach Hts)
      as (r & bar & Hup & _ & _ & _ & Hr).
    assert (Hreach' : reachable w (mk w (window_start w (Tick.timestamp tick))
                                      (Some bar))).
    { destruct Hreach as [pre Hpre]. exists (pre ++ [tick]).
      revert Hpre. generalize (new w). clear -Hup.
      induction pre as [|t0 pre IHp]; intros a; cbn.
      - intros [= ->]. by rewrite Hup.
      - destruct (update a t0) as [[? a1]|]; [apply IHp|done]. }
    destruct (IH _ Hreach' Hall) as (bars & agg' & Hcol & Hr' & Hlen & _ & Hsome).
    exists (option_list r ++ bars), agg'. cbn [collect]. rewrite Hup, Hcol.
    split; [done|]. split; [done|].
    rewrite length_app. cbn [length].
    assert (Hone : (length (option_list r) <= 1)%nat)
      by (destruct r; cbn; lia).
    split; [lia|]. split.
    + intros Hnone _. destruct Hr as [->|[-> _]]; [cbn; lia|].
      rewrite Hnone. cbn. lia.
    + intros _. destruct ticks as [|t1 ticks'].
      * cbn in Hcol. injection Hcol as _ <-. cbn. eauto.
      * by apply Hsome.
Qed.

(** A bar strategy never flushes.  Over a non-empty stream of ticks in
    range, with a non-zero window size, [onTick] is always defined, calls
    [onBar] fewer times than there are ticks, and leaves the bar of the
    last tick in progress, never passed to [onBar]; when all the ticks
    fall in one window [onBar] is not called at all. *)
Theorem bar_strategy_never_flushes (w : Z) (ticks : list Tick.t)
    (final : Tick.t) :
  uint64_range w -> w <> 0 ->
  Forall (fun tick => uint64_range (Tick.timestamp tick))
         (ticks ++ [final]) ->
  exists bars bs bar,
    delivered (BarStrategy.new w) (ticks ++ [final]) = Some (bars, bs)
    /\ (length bars <= length ticks)%nat
    /\ flush (BarStrategy.aggregator bs) = Some bar
    /\ Bar.startTimestamp bar = window_start w (Tick.timestamp final)
    /\ Bar.close bar = Tick.price final
    /\ (Forall (fun tick => window_start w (Tick.timestamp tick)
                            = window_start w (Tick.timestamp final)) ticks ->
        bars = []).
Proof.
  intros Hw Hw0 Hall. rewrite delivered_collect. cbn [BarStrategy.new
    BarStrategy.aggregator].
  assert (Hreach : reachable w (new w)) by (by exists []).
  destruct (collect_total w (ticks ++ [final]) (new w) Hw Hw0 Hreach Hall)
    as (bars & agg' & Hcol & Hreach' & _ & Hlt & _).
  assert (Hlen : (length bars <= length ticks)%nat).
  { assert (H : (length bars < length (ticks ++ [final]))%nat).
    { apply Hlt; [done|]. by destruct ticks. }
    rewrite length_app in H. cbn in H. lia. }
  (* the last update *)
  assert (Hlast : exists agg0 r bar,
             update agg0 final
             = Some (r, mk w (window_start w (Tick.timestamp final))
                           (Some bar))
             /\ agg' = mk w (window_start w (Tick.timestamp final)) (Some bar)
             /\ Bar.startTimestamp bar
                = window_start w (Tick.timestamp final)
             /\ Bar.close bar = Tick.price final).
  { clear Hlt Hlen. revert Hcol Hreach Hall. generalize (new w) bars.
    induction ticks as [|t0 ticks IH]; intros a bs0 Hcol Hreach Hall.
    - apply Forall_cons in Hall as [Hts _].
      destruct (update_in_progress w a final Hw Hw0 Hreach Hts)
        as (r & bar & Hup & Hstart & Hclose & _).
      cbn in Hcol. rewrite Hup in Hcol. injection Hcol as _ <-.
      exists a, r, bar. done.
    - cbn [app] in Hall, Hcol. apply Forall_cons in Hall as [Hts Hall].
      destruct (update_in_progress w a t0 Hw Hw0 Hreach Hts)
        as (r & bar & Hup & _).
      cbn [collect] in Hcol. rewrite Hup in Hcol.
      destruct (collect _ (ticks ++ [final])) as [[bs1 a1]|] eqn:Hc1;
        [|done].
      injection Hcol as _ <-.
      apply (IH _ bs1 Hc1); [|done].
      destruct Hreach as [pre Hpre]. exists (pre ++ [t0]).
      revert Hpre. generalize (new w). clear -Hup.
      induction pre as [|t1 pre IHp]; intros a0; cbn.
      + intros [= ->]. by rewrite Hup.
      + destruct (update a0 t1) as [[? a2]|]; [apply IHp|done]. }
  destruct Hlast as (agg0 & r & bar & _ & -> & Hstart & Hclose).
  exists bars, (BarStrategy.mk (mk w (window_start w (Tick.timestamp final))
                                  (Some bar))), bar.
  rewrite Hcol. split; [done|]. split; [exact Hlen|]. split; [done|].
  split; [exact Hstart|]. split; [exact Hclose|].
  intros Hsame.
  destruct ticks as [|first rest].
  - cbn in Hcol. destruct (update (new w) final) as [[r0 a0]|] eqn:Hup;
      [|done].
    injection Hcol as <- _. unfold update in Hup. cbn in Hup.
    destruct (w =? 0); [done|]. injection Hup as <- _. done.
  - assert (Hwin : Forall (fun tick =>
               uint64_range (Tick.timestamp tick)
               /\ window_start w (Tick.timestamp tick)
                  = Bar.startTimestamp
                      (seeded w (window_start w (Tick.timestamp first)) first))
               (rest ++ [final])).
    { cbn [app] in Hall. apply Forall_cons in Hall as [_ Hall].
      apply Forall_cons in Hsame as [Hfirst Hsame].
      cbn [seeded Bar.startTimestamp]. rewrite Hfirst.
      apply Forall_app. apply Forall_app in Hall as [Hall1 Hall2]. split.
      - rewrite Forall_forall in Hall1, Hsame |- *. intros x Hx.
        split; [by apply Hall1|by apply Hsame].
      - apply Forall_cons in Hall2 as [Hf _].
        apply Forall_cons. split; [by split|constructor]. }
    cbn [app collect] in Hcol.
    cbn [app] in Hall. apply Forall_cons in Hall as [Hts _].
    assert (Hup : update (new w) first
                  = Some (None,
                          mk w (window_start w (Tick.timestamp first))
                             (Some (seeded w (window_start w
                                      (Tick.timestamp first)) first)))).
    { pose proof (update_cases (new w) first Hw0) as Hc. cbv zeta in Hc.
      cbn [new windowSize currentBar] in Hc.
      by rewrite (window_start_exact _ _ Hts Hw Hw0) in Hc. }
    rewrite Hup in Hcol.
    rewrite (collect_same_window w (rest ++ [final])
               (mk w (window_start w (Tick.timestamp first))
                   (Some (seeded w (window_start w (Tick.timestamp first))
                                 first)))
               (seeded w (window_start w (Tick.timestamp first)) first)
               Hw Hw0 eq_refl eq_refl eq_refl Hwin) in Hcol.
    by injection Hcol as <- _.
Qed.

(** Three ticks of one minute through a bar strategy: [onBar] is not
    called. *)
Lemma bar_strategy_never_flushes_witness :
  uint64_range 60000 /\ 60000 <> 0
  /\ exists bs,
       delivered (BarStrategy.new 60000)
         ([Tick.mk 1000 10 1; Tick.mk 2000 12 2] ++ [Tick.mk 59000 11 3])
       = Some ([], bs).
Proof.
  assert (Hr : uint64_range 60000) by (unfold uint64_range; lia).
  assert (Hn : (60000 <> 0)%Z) by lia.
  split; [exact Hr|]. split; [exact Hn|].
  assert (Hall : Forall (fun tick => uint64_range (Tick.timestamp tick))
                   ([Tick.mk 1000 10 1; Tick.mk 2000 12 2]
                    ++ [Tick.mk 59000 11 3]))
    by (repeat constructor; unfold uint64_range; cbn; lia).
  destruct (bar_strategy_never_flushes 60000
              [Tick.mk 1000 10 1; Tick.mk 2000 12 2] (Tick.mk 59000 11 3)
              Hr Hn Hall)
    as (bars & bs & bar & Hd & _ & _ & _ & _ & Hnone).
  exists bs. rewrite Hd. rewrite Hnone; [done|].
  repeat constructor.
Defined.

End BarStrategyFacts.

(** ** The statistics collector, continued *)

Module StatsMore.
Import StatsCollector StatsSpec StatsFacts.

Lemma recordPnL_initialPnL sc v :
  initialPnL (recordPnL sc v)
  = match pnlSeries sc with [] => v | _ :: _ => initialPnL sc end.
Proof. reflexivity. Qed.

(** The initial value is the first value recorded, and stays it: after any
    sequence of [recordPnL] calls on a collector without values,
    [getInitialPnL] is the first of them, or what it was when there is
    none. *)
Theorem initial_pnl_is_first (sc : t) (values : list Q) :
  pnlSeries sc = [] ->
  getInitialPnL (view (fold_left recordPnL values sc))
  = default (initialPnL sc) (head values)
  /\ getInitialPnL (view (fold_left recordPnL values new))
     = default 0%Q (head values).
Proof.
  assert (H : forall vals s, pnlSeries s <> [] ->
                initialPnL (fold_left recordPnL vals s) = initialPnL s).
  { induction vals as [|v vals IH]; intros s Hs; [done|].
    cbn [fold_left]. rewrite IH.
    - rewrite recordPnL_initialPnL. by destruct (pnlSeries s).
    - rewrite recordPnL_pnlSeries. by destruct (pnlSeries s). }
  assert (G : forall s, pnlSeries s = [] ->
                initialPnL (fold_left recordPnL values s)
                = default (initialPnL s) (head values)).
  { intros s Hs. destruct values as [|v values]; [done|].
    cbn [fold_left head default]. rewrite H.
    - by rewrite recordPnL_initialPnL, Hs.
    - by rewrite recordPnL_pnlSeries, Hs. }
  intros Hsc. split; [by apply G|by apply (G new)].
Qed.

(** A collector that was handed three values reports the first. *)
Lemma initial_pnl_is_first_witness :
  pnlSeries new = []
  /\ getInitialPnL (view (fold_left recordPnL [100; 90; 120]%Q new))
     = 100%Q.
Proof.
  split; [reflexivity|].
  exact (proj1 (initial_pnl_is_first new [100; 90; 120]%Q eq_refl)).
Defined.

Lemma addStat_series sc name f :
  pnlSeries (addStat sc name f) = pnlSeries sc
  /\ returnsSeries (addStat sc name f) = returnsSeries sc
  /\ initialPnL (addStat sc name f) = initialPnL sc.
Proof. unfold addStat. by case_bool_decide. Qed.

Lemma addStat_lookup sc name f n :
  statsFunction (addStat sc name f) !! n
  = match statsFunction sc !! n with
    | Some g => Some g
    | None => if decide (name = n) then Some f else None
    end.
Proof.
  unfold addStat. case_bool_decide as Hin.
  - destruct (statsFunction sc !! n) eqn:E; [done|].
    case_decide; [|done]. subst. destruct Hin as [? Hin]. congruence.
  - cbn. destruct (decide (name = n)) as [->|Hne].
    + rewrite lookup_insert_eq.
      destruct (statsFunction sc !! n) eqn:E; [|done].
      exfalso. apply Hin. eauto.
    + rewrite lookup_insert_ne by done. by destruct (statsFunction sc !! n).
Qed.

Lemma collector_eq (a b : t) :
  initialPnL a = initialPnL b -> pnlSeries a = pnlSeries b ->
  returnsSeries a = returnsSeries b ->
  (forall n, statsFunction a !! n = statsFunction b !! n) ->
  a = b.
Proof.
  destruct a, b. cbn. intros -> -> -> H. f_equal. by apply map_eq.
Qed.

(** Registrations under different names do not interfere: their order
    does not matter, and none touches the series. *)
Theorem addStat_commutes (sc : t) (n1 n2 : string)
    (f g : StatsFunction) :
  n1 <> n2 ->
  addStat (addStat sc n1 f) n2 g = addStat (addStat sc n2 g) n1 f
  /\ view (addStat sc n1 f) = view sc.
Proof.
  intros Hne. split.
  - apply collector_eq.
    + destruct (addStat_series (addStat sc n1 f) n2 g) as (_ & _ & ->).
      destruct (addStat_series (addStat sc n2 g) n1 f) as (_ & _ & ->).
      destruct (addStat_series sc n1 f) as (_ & _ & ->).
      by destruct (addStat_series sc n2 g) as (_ & _ & ->).
    + destruct (addStat_series (addStat sc n1 f) n2 g) as (-> & _).
      destruct (addStat_series (addStat sc n2 g) n1 f) as (-> & _).
      destruct (addStat_series sc n1 f) as (-> & _).
      by destruct (addStat_series sc n2 g) as (-> & _).
    + destruct (addStat_series (addStat sc n1 f) n2 g) as (_ & -> & _).
      destruct (addStat_series (addStat sc n2 g) n1 f) as (_ & -> & _).
      destruct (addStat_series sc n1 f) as (_ & -> & _).
      by destruct (addStat_series sc n2 g) as (_ & -> & _).
    + intros n. rewrite !addStat_lookup.
      destruct (statsFunction sc !! n); [done|].
      repeat case_decide; congruence.
  - unfold view. by destruct (addStat_series sc n1 f) as (-> & -> & ->).
Qed.

(** Two statistics registered in either order give the same collector. *)
Lemma addStat_commutes_witness :
  "A"%string <> "B"%string
  /\ addStat (addStat new "A" last_value) "B" (fun _ => 1%Q)
     = addStat (addStat new "B" (fun _ => 1%Q)) "A" last_value.
Proof.
  assert (H : "A"%string <> "B"%string) by discriminate.
  split; [exact H|].
  exact (proj1 (addStat_commutes new "A" "B" last_value (fun _ => 1%Q) H)).
Defined.

Lemma recordPnL_addStat sc name f v :
  recordPnL (addStat sc name f) v = addStat (recordPnL sc v) name f.
Proof. unfold addStat. cbn [recordPnL statsFunction]. by case_bool_decide. Qed.

Lemma recordPnL_all_addStat values sc name f :
  fold_left recordPnL values (addStat sc name f)
  = addStat (fold_left recordPnL values sc) name f.
Proof.
  revert sc. induction values as [|v values IH]; intros sc; [done|].
  cbn [fold_left]. by rewrite recordPnL_addStat, IH.
Qed.

(** With two values or more, [computeStats] is the registry with every
    function applied to the collector. *)
Lemma computeStats_fmap sc :
  (2 <= length (pnlSeries sc))%nat ->
  computeStats sc = (fun f => f (view sc)) <$> statsFunction sc.
Proof.
  intros Hge. unfold computeStats, computeStats_traced.
  apply Nat.ltb_ge in Hge. rewrite Hge.
  pose proof (NoDup_fst_map_to_list (statsFunction sc)) as Hnd.
  destruct (computeStats_loop (view sc) _ (∅, []) Hnd) as [_ Hres].
  cbv zeta in Hres. apply map_eq. intros n.
  rewrite Hres, lookup_fmap, list_to_map_to_list. cbn.
  destruct (statsFunction sc !! n); [done|apply lookup_empty].
Qed.

(** Statistics are lazy: a statistic registered before the values are
    recorded is computed, at the end, on the whole series, as if it had
    been registered last. *)
Theorem statistics_are_lazy (sc : t) (name : string) (f : StatsFunction)
    (values : list Q) :
  statsFunction sc !! name = None ->
  (2 <= length (pnlSeries sc) + length values)%nat ->
  let final := fold_left recordPnL values (addStat sc name f) in
  final = addStat (fold_left recordPnL values sc) name f
  /\ computeStats final !! name
     = Some (f (view (fold_left recordPnL values sc)))
  /\ getPnLSeries (view (fold_left recordPnL values sc))
     = pnlSeries sc ++ values.
Proof.
  intros Hfresh Hlen final. subst final.
  assert (Hseries : forall s, pnlSeries (fold_left recordPnL values s)
                              = pnlSeries s ++ values).
  { clear. induction values as [|v values IH]; intros s; cbn [fold_left].
    - by rewrite app_nil_r.
    - by rewrite IH, recordPnL_pnlSeries, <- app_assoc. }
  assert (Hreg : forall s, statsFunction (fold_left recordPnL values s)
                           = statsFunction s).
  { clear. induction values as [|v values IH]; intros s; [done|].
    cbn [fold_left]. by rewrite IH. }
  split; [apply recordPnL_all_addStat|]. split; [|apply Hseries].
  rewrite recordPnL_all_addStat, computeStats_fmap.
  - rewrite lookup_fmap, addStat_lookup, Hreg, Hfresh.
    rewrite decide_True by done. cbn. f_equal. f_equal.
    unfold view. by destruct (addStat_series (fold_left recordPnL values sc)
                                name f) as (-> & -> & ->).
  - destruct (addStat_series (fold_left recordPnL values sc) name f)
      as (-> & _).
    rewrite Hseries, length_app. lia.
Qed.

(** The last value, registered before any value exists, is computed on the
    series recorded afterwards. *)
Lemma statistics_are_lazy_witness :
  statsFunction new !! "Last"%string = None
  /\ (2 <= length (pnlSeries new) + length [1; 2]%Q)%nat
  /\ computeStats (fold_left recordPnL [1; 2]%Q (addStat new "Last" last_value))
     !! "Last"%string
     = Some (last_value (view (fold_left recordPnL [1; 2]%Q new))).
Proof.
  assert (H : statsFunction new !! "Last"%string = None) by reflexivity.
  assert (L : (2 <= length (pnlSeries new) + length [1; 2]%Q)%nat)
    by (cbn; lia).
  split; [exact H|]. split; [exact L|].
  exact (proj1 (proj2 (statistics_are_lazy new "Last" last_value [1; 2]%Q
                         H L))).
Defined.

Lemma addStat_names_lookup
    (us : string -> StatsFunction) (names : list string) (sc : t) n :
  statsFunction
    (fold_left (fun sc name => addStat sc name (us name)) names sc) !! n
  = match statsFunction sc !! n with
    | Some g => Some g
    | None => if bool_decide (n ∈ names) then Some (us n) else None
    end.
Proof.
  revert sc. induction names as [|name names IH]; intros sc; cbn [fold_left].
  - by destruct (statsFunction sc !! n).
  - rewrite IH, addStat_lookup. destruct (statsFunction sc !! n); [done|].
    destruct (decide (name = n)) as [->|Hne].
    + by rewrite bool_decide_eq_true_2 by left.
    + destruct (bool_decide (n ∈ names)) eqn:E.
      * apply bool_decide_eq_true in E.
        by rewrite bool_decide_eq_true_2 by (by right).
      * apply bool_decide_eq_false in E.
        rewrite bool_decide_eq_false_2; [done|].
        intros [?|?]%elem_of_cons; congruence.
Qed.

Lemma addStat_names_fields
    (us : string -> StatsFunction) (names : list string) (sc : t) :
  initialPnL (fold_left (fun sc name => addStat sc name (us name)) names sc)
  = initialPnL sc
  /\ pnlSeries (fold_left (fun sc name => addStat sc name (us name)) names sc)
     = pnlSeries sc
  /\ returnsSeries
       (fold_left (fun sc name => addStat sc name (us name)) names sc)
     = returnsSeries sc.
Proof.
  revert sc. induction names as [|name names IH]; intros sc; [done|].
  cbn [fold_left]. destruct (IH (addStat sc name (us name))) as (-> & -> & ->).
  destruct (addStat_series sc name (us name)) as (-> & -> & ->). done.
Qed.

Lemma addStat_names_series
    (us : string -> StatsFunction) (names : list string) (sc : t) :
  view (fold_left (fun sc name => addStat sc name (us name)) names sc)
  = view sc.
Proof.
  unfold view.
  by destruct (addStat_names_fields us names sc) as (-> & -> & ->).
Qed.

Lemma addStat_names_again
    (us us' : string -> StatsFunction) (names : list string) (sc : t) :
  fold_left (fun sc name => addStat sc name (us' name)) names
    (fold_left (fun sc name => addStat sc name (us name)) names sc)
  = fold_left (fun sc name => addStat sc name (us name)) names sc.
Proof.
  destruct (addStat_names_fields us' names
              (fold_left (fun sc name => addStat sc name (us name)) names sc))
    as (H1 & H2 & H3).
  apply collector_eq; [exact H1|exact H2|exact H3|].
  intros n. rewrite (addStat_names_lookup us'), (addStat_names_lookup us).
  destruct (statsFunction sc !! n); [done|]. by case_bool_decide.
Qed.

Lemma addStat_names_dom
    (us : string -> StatsFunction) (names : list string) (sc : t) :
  dom (statsFunction
         (fold_left (fun sc name => addStat sc name (us name)) names sc))
  = dom (statsFunction sc) ∪ list_to_set names.
Proof.
  apply set_eq. intros n.
  rewrite elem_of_union, !elem_of_dom, elem_of_list_to_set.
  rewrite addStat_names_lookup.
  destruct (statsFunction sc !! n) eqn:E.
  - split; [intros _; left|]; eauto.
  - case_bool_decide as Hn.
    + split; [by right|eauto].
    + split; [by intros [? ?]|]. intros [[? ?]|?]; done.
Qed.

(** [registerUserStats] adds the six standard names and nothing else,
    leaves the series and every statistic already registered as they are,
    also one registered under a standard name, and has no effect when it
    runs again, even for another time frame. *)
Theorem registerUserStats_registry
    (userStat : TimeFrame -> string -> StatsFunction)
    (sc : t) (tf tf' : TimeFrame) :
  let sc' := BacktestEngine.registerUserStats userStat sc tf in
  dom (statsFunction sc')
  = dom (statsFunction sc) ∪ list_to_set user_stat_names
  /\ (forall n g, statsFunction sc !! n = Some g ->
       statsFunction sc' !! n = Some g)
  /\ (forall n, statsFunction sc !! n = None -> n ∈ user_stat_names ->
       statsFunction sc' !! n = Some (userStat tf n))
  /\ view sc' = view sc
  /\ BacktestEngine.registerUserStats userStat sc' tf' = sc'.
Proof.
  change (BacktestEngine.registerUserStats userStat sc tf)
    with (fold_left (fun sc name => addStat sc name (userStat tf name))
                    user_stat_names sc).
  cbv zeta.
  change (BacktestEngine.registerUserStats userStat
            (fold_left (fun sc name => addStat sc name (userStat tf name))
                       user_stat_names sc) tf')
    with (fold_left (fun sc name => addStat sc name (userStat tf' name))
            user_stat_names
            (fold_left (fun sc name => addStat sc name (userStat tf name))
                       user_stat_names sc)).
  generalize user_stat_names. intros names.
  split; [apply addStat_names_dom|].
  split; [intros n g Hg; by rewrite addStat_names_lookup, Hg|].
  split.
  - intros n Hn Hin. rewrite addStat_names_lookup, Hn.
    by rewrite bool_decide_eq_true_2.
  - split; [apply addStat_names_series|apply addStat_names_again].
Qed.

End StatsMore.

(** ** The standard statistics *)

Module StatistiquesFacts.
Import StatsCollector Statistiques.

Lemma Qlt_bool_true (a b : Q) : Qlt_bool a b = true <-> (a < b)%Q.
Proof. unfold Qlt_bool, Qlt. apply Z.ltb_lt. Qed.

Lemma Qlt_bool_false (a b : Q) : Qlt_bool a b = false <-> (b <= a)%Q.
Proof. unfold Qlt_bool, Qle. apply Z.ltb_ge. Qed.

Lemma eps_pos : (0 < eps)%Q.
Proof. reflexivity. Qed.

Lemma drawdown_step_range (peak pnl : Q) :
  (eps < std_max peak pnl)%Q ->
  ((pnl - std_max peak pnl) / std_max peak pnl <= 0)%Q
  /\ ((0 <= pnl)%Q -> (-1 <= (pnl - std_max peak pnl) / std_max peak pnl)%Q).
Proof.
  intros Hpeak. pose proof eps_pos as He.
  assert (Hpos : (0 < std_max peak pnl)%Q) by lra.
  assert (Hge : (pnl <= std_max peak pnl)%Q)
    by (rewrite std_max_Qmax; apply Q.le_max_r).
  split.
  - apply Qle_shift_div_r; [exact Hpos|]. lra.
  - intros Hpnl. apply Qle_shift_div_l; [exact Hpos|]. lra.
Qed.

Lemma MaxDrawdown_loop_range (l : list Q) (acc : Q * Q) :
  (acc.2 <= 0)%Q ->
  ((fold_left MaxDrawdown_body l acc).2 <= 0)%Q
  /\ (Forall (fun x => (0 <= x)%Q) l -> (-1 <= acc.2)%Q ->
      (-1 <= (fold_left MaxDrawdown_body l acc).2)%Q).
Proof.
  revert acc. induction l as [|pnl l IH]; intros [peak dd] Hdd; cbn [fold_left].
  - done.
  - cbn [snd fst] in Hdd.
    assert (Hstep : ((MaxDrawdown_body (peak, dd) pnl).2 <= 0)%Q
                    /\ ((0 <= pnl)%Q -> (-1 <= dd)%Q ->
                        (-1 <= (MaxDrawdown_body (peak, dd) pnl).2)%Q)).
    { unfold MaxDrawdown_body. cbn [fst snd].
      destruct (Qlt_bool eps (std_max peak pnl)) eqn:E; [|done].
      apply Qlt_bool_true in E.
      destruct (drawdown_step_range peak pnl E) as [Hle Hge].
      rewrite std_min_Qmin. split.
      - eapply Qle_trans; [apply Q.le_min_l|exact Hdd].
      - intros Hpnl Hlow. apply Q.min_glb; [exact Hlow|by apply Hge]. }
    destruct Hstep as [Hs1 Hs2].
    destruct (IH (MaxDrawdown_body (peak, dd) pnl) Hs1) as [IH1 IH2].
    split; [exact IH1|]. intros Hall Hlow.
    apply Forall_cons in Hall as [Hpnl Hall]. apply IH2; [exact Hall|].
    by apply Hs2.
Qed.

Lemma MaxDrawdown_loop_flat (l : list Q) (peak : Q) :
  Forall (fun x => (peak <= x)%Q) l -> nondecreasing l ->
  (fold_left MaxDrawdown_body l (peak, 0%Q)).2 = 0%Q.
Proof.
  revert peak. induction l as [|pnl l IH]; intros peak Hge Hnd; [done|].
  cbn [fold_left]. apply Forall_cons in Hge as [Hpnl _].
  destruct Hnd as [Hrest Hnd].
  assert (Hmax : (std_max peak pnl == pnl)%Q)
    by (rewrite std_max_Qmax; by apply Q.max_r).
  assert (Hbody : MaxDrawdown_body (peak, 0%Q) pnl = (std_max peak pnl, 0%Q)).
  { unfold MaxDrawdown_body. cbn [fst snd].
    destruct (Qlt_bool eps (std_max peak pnl)) eqn:E; [|done].
    apply Qlt_bool_true in E. f_equal. unfold std_min.
    rewrite (proj2 (Qlt_bool_false _ 0%Q)); [done|].
    apply Qle_shift_div_l; [pose proof eps_pos; lra|]. lra. }
  rewrite Hbody. apply IH; [|exact Hnd].
  eapply Forall_impl; [exact Hrest|]. intros x Hx. cbv beta in *. lra.
Qed.

Lemma MaxDrawdown_loop_small (l : list Q) (peak : Q) :
  (peak <= eps)%Q -> Forall (fun x => (x <= eps)%Q) l ->
  (fold_left MaxDrawdown_body l (peak, 0%Q)).2 = 0%Q.
Proof.
  revert peak. induction l as [|pnl l IH]; intros peak Hpeak Hall; [done|].
  cbn [fold_left]. apply Forall_cons in Hall as [Hpnl Hall].
  assert (Hmax : (std_max peak pnl <= eps)%Q).
  { rewrite std_max_Qmax. by apply Q.max_lub. }
  unfold MaxDrawdown_body at 2. cbn [fst snd].
  rewrite (proj2 (Qlt_bool_false _ _) Hmax). by apply IH.
Qed.

(** The maximum drawdown is never positive; it is at least -1 when no
    value is negative; it is 0 for a series that never falls, and also for
    a series that never rises above [1e-8], however it falls. *)
Theorem MaxDrawdown_range (v : View) :
  (MaxDrawdown v <= 0)%Q
  /\ (Forall (fun x => (0 <= x)%Q) (getPnLSeries v) ->
      (-1 <= MaxDrawdown v)%Q)
  /\ (nondecreasing (getPnLSeries v) -> MaxDrawdown v = 0%Q)
  /\ (Forall (fun x => (x <= eps)%Q) (getPnLSeries v) ->
      MaxDrawdown v = 0%Q).
Proof.
  unfold MaxDrawdown. destruct (getPnLSeries v) as [|first rest] eqn:E.
  - repeat split; try done; lra.
  - destruct (MaxDrawdown_loop_range (first :: rest) (first, 0%Q))
      as [H1 H2]; [cbn; lra|].
    split; [exact H1|]. split; [|split].
    + intros Hall. apply H2; [exact Hall|cbn; lra].
    + intros Hnd. apply MaxDrawdown_loop_flat; [|exact Hnd].
      destruct Hnd as [Hrest _]. apply Forall_cons.
      split; [apply Qle_refl|exact Hrest].
    + intros Hall. apply MaxDrawdown_loop_small; [|exact Hall].
      by apply Forall_cons in Hall as [? _].
Qed.

End StatistiquesFacts.

(** ** The scheduler, continued *)

Module EngineMore.
Import BacktestEngine EngineSpec EngineFacts.

(** Truncation toward zero of a fraction with a positive denominator. *)
Lemma quot_trunc (n d : Z) :
  0 < d ->
  (0 <= n -> 0 <= n - d * Z.quot n d < d /\ 0 <= Z.quot n d)
  /\ (n <= 0 -> - d < n - d * Z.quot n d <= 0 /\ Z.quot n d <= 0).
Proof.
  intros Hd. pose proof (Z.quot_rem' n d) as Hqr. split; intros Hn.
  - pose proof (Z.rem_bound_pos n d Hn Hd).
    pose proof (Z.quot_pos n d Hn Hd). lia.
  - assert (Hm : 0 <= - n) by lia.
    pose proof (Z.rem_bound_pos (- n) d Hm Hd) as Hb.
    pose proof (Z.quot_pos (- n) d Hm Hd) as Hq.
    rewrite Z.rem_opp_l in Hb by lia. rewrite Z.quot_opp_l in Hq by lia.
    lia.
Qed.

(** The same, among the rationals. *)
Lemma quot_trunc_Q (n : Z) (d : positive) :
  ((0 <= n)%Z ->
   (0 <= inject_Z (Z.quot n (Z.pos d)))%Q
   /\ (inject_Z (Z.quot n (Z.pos d)) <= n # d)%Q
   /\ (n # d < inject_Z (Z.quot n (Z.pos d)) + 1)%Q)
  /\ ((n <= 0)%Z ->
      (inject_Z (Z.quot n (Z.pos d)) <= 0)%Q
      /\ (n # d <= inject_Z (Z.quot n (Z.pos d)))%Q
      /\ (inject_Z (Z.quot n (Z.pos d)) - 1 < n # d)%Q).
Proof.
  assert (Hd : 0 < Z.pos d) by lia.
  destruct (quot_trunc n (Z.pos d) Hd) as [Hpos Hneg].
  set (q := Z.quot n (Z.pos d)) in *.
  assert (Hplus : (inject_Z q + 1 == inject_Z (q + 1))%Q)
    by (rewrite inject_Z_plus; reflexivity).
  assert (Hminus : (inject_Z q - 1 == inject_Z (q - 1))%Q)
    by (unfold Z.sub; rewrite inject_Z_plus; reflexivity).
  split; intros Hn.
  - destruct (Hpos Hn) as [Hr Hq]. split; [|split].
    + rewrite <- (Zle_Qle 0). exact Hq.
    + unfold Qle. cbn [Qnum Qden inject_Z]. lia.
    + rewrite Hplus. unfold Qlt. cbn [Qnum Qden inject_Z]. lia.
  - destruct (Hneg Hn) as [Hr Hq]. split; [|split].
    + rewrite <- (Zle_Qle _ 0). exact Hq.
    + unfold Qle. cbn [Qnum Qden inject_Z]. lia.
    + rewrite Hminus. unfold Qlt. cbn [Qnum Qden inject_Z]. lia.
Qed.

(** Registration is defined exactly for an initial cash strictly between
    -2147483649 and 2147483648; the ledger is then seeded with the initial
    cash truncated toward zero, a whole number less than 1 away from it and
    no larger in absolute value. *)
Theorem seeding_range (e : t) (name : string) (strategy : Strategy.t)
    (tf : TimeFrame) (initialCash : Q) :
  (addStrategy e name strategy tf initialCash = None
   <-> (initialCash <= -2147483649)%Q \/ (2147483648 <= initialCash)%Q)
  /\ (forall e',
       addStrategy e name strategy tf initialCash = Some e' ->
       exists ctx z,
         strategies e' = strategies e ++ [ctx]
         /\ data e' = data e /\ quoteData e' = quoteData e
         /\ StrategyContext.name ctx = name
         /\ StrategyContext.statistics ctx = StatsCollector.new
         /\ StrategyContext.orderManager ctx = OrderManager.new z
         /\ (Qabs (initialCash - inject_Z z) < 1)%Q
         /\ (Qabs (inject_Z z) <= Qabs initialCash)%Q).
Proof.
  destruct initialCash as [n d].
  unfold addStrategy, StrategyContext.new, int_of_double, INT_MIN, INT_MAX.
  cbn [Qnum Qden].
  assert (Hd : 0 < Z.pos d) by lia.
  destruct (quot_trunc n (Z.pos d) Hd) as [Hpos Hneg].
  set (q := Z.quot n (Z.pos d)) in *.
  destruct (andb _ _) eqn:Hrange; cbn [mbind option_bind].
  - apply andb_true_iff in Hrange as [Hlo Hhi].
    apply Z.leb_le in Hlo, Hhi. split.
    + split; [done|]. unfold Qle. cbn. intros [H|H]; exfalso.
      * assert (n <= 0) by lia. destruct (Hneg ltac:(lia)). nia.
      * assert (0 <= n) by lia. destruct (Hpos ltac:(lia)). nia.
    + intros e' [= <-]. eexists _, q.
      cbn [strategies data quoteData StrategyContext.name
           StrategyContext.statistics StrategyContext.orderManager].
      repeat (split; [reflexivity|]).
      destruct (quot_trunc_Q n d) as [HposQ HnegQ]. fold q in HposQ, HnegQ.
      destruct (Z.le_ge_cases 0 n) as [Hn|Hn].
      * destruct (HposQ Hn) as (H0 & H1 & H2). split.
        -- apply Qabs_Qlt_condition. split; lra.
        -- rewrite (Qabs_pos (inject_Z q)) by exact H0.
           rewrite (Qabs_pos (n # d)) by lra. exact H1.
      * destruct (HnegQ Hn) as (H0 & H1 & H2). split.
        -- apply Qabs_Qlt_condition. split; lra.
        -- rewrite (Qabs_neg (inject_Z q)) by exact H0.
           rewrite (Qabs_neg (n # d)) by lra. lra.
  - split; [|done]. split; [|done]. intros _.
    apply andb_false_iff in Hrange as [Hlo|Hhi].
    + apply Z.leb_gt in Hlo. left. unfold Qle. cbn.
      destruct (Z.le_ge_cases 0 n) as [Hn|Hn].
      * destruct (Hpos Hn). lia.
      * destruct (Hneg Hn). nia.
    + apply Z.leb_gt in Hhi. right. unfold Qle. cbn.
      destruct (Z.le_ge_cases 0 n) as [Hn|Hn].
      * destruct (Hpos Hn). nia.
      * destruct (Hneg Hn). lia.
Qed.

End EngineMore.

(** ** The strategies *)

Module StrategyFacts.
Import BacktestEngine StrategyRuns.

Lemma to_size_t_small (z : Z) :
  0 <= z <= INT_MAX -> BreakoutStrategy.to_size_t z = z.
Proof.
  unfold BreakoutStrategy.to_size_t, INT_MAX. intros H.
  apply Z.mod_small. lia.
Qed.

Lemma to_size_t_negative (z : Z) :
  INT_MIN <= z < 0 -> BreakoutStrategy.to_size_t z = 2 ^ 64 + z.
Proof.
  unfold BreakoutStrategy.to_size_t, INT_MIN. intros H.
  rewrite <- (Z.mod_small (2 ^ 64 + z) (2 ^ 64)) by lia.
  rewrite <- (Z.mod_add z 1 (2 ^ 64)) by lia. f_equal. lia.
Qed.

Lemma push_last_n (W : Z) (prices : list Q) (price : Q) :
  1 <= W <= INT_MAX -> Z.of_nat (length prices) <= W ->
  BreakoutStrategy.push W prices price
  = last_n (Z.to_nat W) (prices ++ [price])
  /\ Z.of_nat (length (BreakoutStrategy.push W prices price)) <= W.
Proof.
  intros HW Hlen. unfold BreakoutStrategy.push, last_n.
  rewrite to_size_t_small by lia. rewrite length_app. cbn [length].
  destruct (Z.ltb_spec W (Z.of_nat (length prices + 1))) as [Hlt|Hge].
  - replace (length prices + 1 - Z.to_nat W)%nat with 1%nat by lia.
    split; [by destruct (prices ++ [price])|].
    destruct prices as [|a prices]; cbn [app tail length] in *;
      [lia|]. rewrite length_app. cbn. lia.
  - replace (length prices + 1 - Z.to_nat W)%nat with 0%nat by lia.
    split; [done|]. rewrite length_app. cbn. lia.
Qed.

Lemma last_n_app (n : nat) (l r : list Q) :
  last_n n (last_n n l ++ r) = last_n n (l ++ r).
Proof.
  unfold last_n. rewrite !length_app, length_drop.
  destruct (Nat.le_gt_cases (length l) n) as [Hle|Hgt].
  - replace (length l - n)%nat with 0%nat by lia. cbn [drop].
    by rewrite Nat.sub_0_r.
  - replace (length l - (length l - n) + length r - n)%nat
      with (length r) by lia.
    replace (length l + length r - n)%nat
      with ((length l - n) + length r)%nat by lia.
    rewrite <- (drop_drop (l ++ r) (length r) (length l - n)).
    by rewrite (drop_app_le l r (length l - n)) by lia.
Qed.

(** One tick through a breakout strategy with a window size in range. *)
Lemma breakout_step (W : Z) (tick : Tick.t)
    (st : BreakoutStrategy.state) :
  1 <= W <= INT_MAX ->
  Z.of_nat (length (BreakoutStrategy.recentPrices st)) <= W ->
  exists st' orders,
    BreakoutStrategy.onTick W tick st = Some (st', orders)
    /\ BreakoutStrategy.recentPrices st'
       = BreakoutStrategy.push W (BreakoutStrategy.recentPrices st)
                               (Tick.price tick)
    /\ ((orders = []
         /\ BreakoutStrategy.inPosition st' = BreakoutStrategy.inPosition st)
        \/ (W <= Z.of_nat (length (BreakoutStrategy.recentPrices st))
            /\ BreakoutStrategy.inPosition st'
               = negb (BreakoutStrategy.inPosition st)
            /\ exists o, orders = [o]
                 /\ Order.side o = (if BreakoutStrategy.inPosition st
                                    then Order.SELL else Order.BUY)
                 /\ Order.type o = MARKET /\ Order.volume o = 1%Q
                 /\ Order.price o = Tick.price tick)).
Proof.
  intros HW Hlen. unfold BreakoutStrategy.onTick.
  rewrite to_size_t_small by lia.
  destruct (Z.leb_spec W (Z.of_nat (length (BreakoutStrategy.recentPrices st))))
    as [Hfull|Hnot].
  - destruct (BreakoutStrategy.recentPrices st) as [|a l] eqn:E;
      [cbn in Hfull; lia|].
    cbn [BreakoutStrategy.max_element BreakoutStrategy.min_element].
    destruct (BreakoutStrategy.inPosition st) eqn:Hin; cbn [negb andb].
    + destruct (Qlt_bool (Tick.price tick) _).
      * eexists _, _. split; [reflexivity|]. split; [done|]. right.
        split; [done|]. split; [done|]. eexists. by repeat split.
      * eexists _, _. split; [reflexivity|]. split; [done|]. by left.
    + destruct (Qlt_bool _ (Tick.price tick)).
      * eexists _, _. split; [reflexivity|]. split; [done|]. right.
        split; [done|]. split; [done|]. eexists. by repeat split.
      * eexists _, _. split; [reflexivity|]. split; [done|]. by left.
  - eexists _, _. split; [reflexivity|]. split; [done|]. by left.
Qed.

Lemma breakout_run_in_range (W : Z) (ticks : list Tick.t)
    (st : BreakoutStrategy.state) :
  1 <= W <= INT_MAX ->
  Z.of_nat (length (BreakoutStrategy.recentPrices st)) <= W ->
  exists st' orders,
    breakout_run W st ticks = Some (st', orders)
    /\ BreakoutStrategy.recentPrices st'
       = last_n (Z.to_nat W)
                (BreakoutStrategy.recentPrices st ++ map Tick.price ticks)
    /\ alternating (negb (BreakoutStrategy.inPosition st)) orders
    /\ BreakoutStrategy.inPosition st'
       = xorb (BreakoutStrategy.inPosition st) (Nat.odd (length orders))
    /\ (Z.of_nat (length (BreakoutStrategy.recentPrices st)
                   + length ticks) <= W -> orders = []).
Proof.
  intros HW. revert st. induction ticks as [|tick ticks IH]; intros st Hlen.
  - exists st, []. cbn. rewrite app_nil_r. unfold last_n.
    replace (_ - _)%nat with 0%nat by lia.
    split; [done|]. split; [done|]. split; [done|].
    split; [by destruct (BreakoutStrategy.inPosition st)|done].
  - destruct (breakout_step W tick st HW Hlen)
      as (st1 & orders1 & Hstep & Hwin & Hcase).
    destruct (push_last_n W (BreakoutStrategy.recentPrices st)
                (Tick.price tick) HW Hlen) as [Hpush Hlen1].
    rewrite <- Hwin in Hlen1.
    destruct (IH st1 Hlen1) as (st' & orders & Hrun & Hwin' & Halt & Hpos & Hnone).
    exists st', (orders1 ++ orders). cbn [breakout_run].
    rewrite Hstep, Hrun. split; [done|]. split.
    + rewrite Hwin', Hwin, Hpush, last_n_app, <- app_assoc. done.
    + destruct Hcase as [[-> Hsame]|(Hfull & Hflip & o & -> & Hside & Hty & Hvol & _)].
      * cbn [app]. rewrite Hsame in Halt, Hpos. split; [done|].
        split; [done|]. intros Hfew. apply Hnone.
        rewrite Hwin, Hpush. unfold last_n. rewrite length_drop, length_app.
        cbn [length] in *. lia.
      * cbn [app alternating length]. rewrite Hflip in Halt, Hpos.
        split.
        { split; [|by repeat split].
          rewrite Hside. by destruct (BreakoutStrategy.inPosition st). }
        split.
        { rewrite Hpos, Nat.odd_succ, <- Nat.negb_odd.
          by destruct (BreakoutStrategy.inPosition st),
                      (Nat.odd (length orders)). }
        intros Hfew. cbn [length] in Hfew. lia.
Qed.

(** The rolling window of the breakout strategy, by the template
    parameter.  With a window size from 1 to the greatest [int], [onTick]
    is always defined, the window holds the last [WinSize] prices, no
    order is submitted before [WinSize] ticks have been seen, and the
    orders are market orders of volume 1 that alternate, a buy first.
    With window size 0 the first tick takes the maximum of an empty window,
    which is undefined.  With a negative window size and fewer than 2^63
    ticks the strategy never trades and its window grows with every
    tick. *)
Theorem breakout_window (WinSize : Z) (ticks : list Tick.t) :
  (1 <= WinSize <= INT_MAX ->
   exists st orders,
     breakout_run WinSize BreakoutStrategy.init ticks = Some (st, orders)
     /\ BreakoutStrategy.recentPrices st
        = last_n (Z.to_nat WinSize) (map Tick.price ticks)
     /\ alternating true orders
     /\ BreakoutStrategy.inPosition st = Nat.odd (length orders)
     /\ (Z.of_nat (length ticks) <= WinSize -> orders = []))
  /\ (WinSize = 0 ->
      forall tick,
        BreakoutStrategy.onTick WinSize tick BreakoutStrategy.init = None)
  /\ (INT_MIN <= WinSize < 0 -> Z.of_nat (length ticks) < 2 ^ 63 ->
      exists st,
        breakout_run WinSize BreakoutStrategy.init ticks = Some (st, [])
        /\ BreakoutStrategy.recentPrices st = map Tick.price ticks
        /\ BreakoutStrategy.inPosition st = false).
Proof.
  split; [|split].
  - intros HW.
    destruct (breakout_run_in_range WinSize ticks BreakoutStrategy.init HW)
      as (st & orders & Hrun & Hwin & Halt & Hpos & Hnone); [cbn; lia|].
    exists st, orders. split; [exact Hrun|]. split; [exact Hwin|].
    split; [exact Halt|]. split; [|exact Hnone].
    rewrite Hpos. cbn. by destruct (Nat.odd (length orders)).
  - intros -> tick. reflexivity.
  - intros HW Hfew.
    assert (Hrun : forall st,
               BreakoutStrategy.inPosition st = false ->
               Z.of_nat (length (BreakoutStrategy.recentPrices st)
                         + length ticks) < 2 ^ 63 ->
               exists st',
                 breakout_run WinSize st ticks = Some (st', [])
                 /\ BreakoutStrategy.recentPrices st'
                    = BreakoutStrategy.recentPrices st ++ map Tick.price ticks
                 /\ BreakoutStrategy.inPosition st' = false).
    { clear Hfew. induction ticks as [|tick ticks IH]; intros st Hin Hlen.
      - exists st. cbn. by rewrite app_nil_r.
      - cbn [breakout_run]. unfold BreakoutStrategy.onTick.
        rewrite to_size_t_negative by done. unfold INT_MIN in HW.
        cbn [length] in Hlen.
        destruct (Z.leb_spec (2 ^ 64 + WinSize)
                    (Z.of_nat (length (BreakoutStrategy.recentPrices st))))
          as [Hbad|_]; [lia|].
        unfold BreakoutStrategy.push. rewrite to_size_t_negative
          by (unfold INT_MIN; lia).
        destruct (Z.ltb_spec (2 ^ 64 + WinSize)
                    (Z.of_nat (length (BreakoutStrategy.recentPrices st
                                       ++ [Tick.price tick]))))
          as [Hbad|_]; [rewrite length_app in Hbad; cbn in Hbad; lia|].
        destruct (IH (BreakoutStrategy.mkState
                        (BreakoutStrategy.recentPrices st ++ [Tick.price tick])
                        (BreakoutStrategy.inPosition st)
                        (BreakoutStrategy.entryPrice st)))
          as (st' & Hrun & Hwin & Hpos).
        + exact Hin.
        + cbn. rewrite length_app. cbn. lia.
        + exists st'. rewrite Hrun. split; [done|].
          split; [|exact Hpos]. rewrite Hwin. cbn. by rewrite <- app_assoc. }
    apply (Hrun BreakoutStrategy.init); [done|]. cbn. lia.
Qed.

(** A window of two prices over 10, 11, 12, 9: the strategy buys at the
    breakout above 11 and sells at the fall below 11. *)
Lemma breakout_window_witness :
  1 <= 2 <= INT_MAX
  /\ exists st orders,
       breakout_run 2 BreakoutStrategy.init
         [Tick.mk 0 10 1; Tick.mk 1 11 1; Tick.mk 2 12 1; Tick.mk 3 9 1]
       = Some (st, orders)
       /\ BreakoutStrategy.recentPrices st = [12; 9]%Q
       /\ map Order.side orders = [Order.BUY; Order.SELL].
Proof.
  assert (H : 1 <= 2 <= INT_MAX) by (unfold INT_MAX; lia).
  split; [exact H|].
  destruct (proj1 (breakout_window 2
              [Tick.mk 0 10 1; Tick.mk 1 11 1; Tick.mk 2 12 1; Tick.mk 3 9 1])
              H) as (st & orders & Hrun & Hwin & _).
  exists st, orders. split; [exact Hrun|]. split; [exact Hwin|].
  cbn in Hrun. injection Hrun as _ <-. reflexivity.
Defined.

End StrategyFacts.

(** * Properties of the binary64 model *)

(** ** Doubles and the ledger *)

Module RoundedLedgerFacts.
Import Floats Binary64 Binary64.OrderManager.
#[local] Set Warnings "-inexact-float".


Lemma SFcompare_refl_finite s m e :
  SFcompare (S754_finite s m e) (S754_finite s m e) = Some Eq.
Proof.
  cbn. rewrite Z.compare_refl.
  destruct s; cbn; by rewrite ?Pos.compare_cont_refl, ?Pos.compare_refl.
Qed.

Lemma is_nan_spec (x : double) :
  is_nan x = true <-> Prim2SF x = S754_nan.
Proof.
  unfold is_nan. rewrite FloatAxioms.eqb_spec. unfold SFeqb.
  destruct (Prim2SF x) as [s|s| |s m e].
  - destruct s; cbn; split; discriminate.
  - destruct s; cbn; split; discriminate.
  - cbn. done.
  - rewrite SFcompare_refl_finite. cbn. split; discriminate.
Qed.


Lemma leb_nan_l (x y : double) : is_nan x = true -> (x <=? y)%float = false.
Proof.
  intros H%is_nan_spec. rewrite leb_spec, H. reflexivity.
Qed.

Lemma leb_nan_r (x y : double) : is_nan y = true -> (x <=? y)%float = false.
Proof.
  intros H%is_nan_spec. rewrite leb_spec, H. unfold SFleb, SFcompare.
  by destruct (Prim2SF x).
Qed.

(** ** The ledger in binary64 *)




Lemma execute_pending_b64 om o :
  pendingOrders (execute om o) = pendingOrders om.
Proof. unfold execute. by destruct (Order.side o). Qed.

(** The steps of a sequence of executions, one by one. *)
Lemma execute_steps orders om :
  pendingOrders (fold_left execute orders om) = pendingOrders om
  /\ position (fold_left execute orders om)
     = fold_left (fun position order =>
                    match Order.side order with
                    | Order.BUY => (position + Order.volume order)%float
                    | Order.SELL => (position - Order.volume order)%float
                    end) orders (position om)
  /\ cash (fold_left execute orders om)
     = fold_left (fun cash order =>
                    match Order.side order with
                    | Order.BUY =>
                        (cash - Order.volume order * Order.price order)%float
                    | Order.SELL =>
                        (cash + Order.volume order * Order.price order)%float
                    end) orders (cash om).
Proof.
  revert om. induction orders as [|o orders IH]; intros om; [done|].
  cbn [fold_left]. destruct (IH (execute om o)) as (-> & -> & ->).
  rewrite execute_pending_b64. unfold execute.
  by destruct (Order.side o).
Qed.






Lemma handleTick_body_fills_b64 tick om still o :
  handleTick_body tick (om, still) o
  = if tick_fills tick o then (execute om o, still) else (om, still ++ [o]).
Proof.
  unfold handleTick_body, tick_fills, Order.is_buy, Order.is_sell.
  destruct (Order.side o); cbn [andb];
    by destruct (_ <=? _)%float.
Qed.

Lemma handleTick_loop_b64 tick l om still :
  fold_left (handleTick_body tick) l (om, still)
  = (fold_left execute (List.filter (tick_fills tick) l) om,
     still ++ List.filter (fun o => negb (tick_fills tick o)) l).
Proof.
  revert om still.
  induction l as [|o l IH]; intros om still; cbn [fold_left List.filter].
  - by rewrite app_nil_r.
  - rewrite handleTick_body_fills_b64.
    destruct (tick_fills tick o); cbn [negb fold_left]; rewrite IH; [done|].
    by rewrite <- app_assoc.
Qed.

Lemma handleTick_eq_b64 om tick :
  handleTick om tick
  = let om' := fold_left execute
                 (List.filter (tick_fills tick) (pendingOrders om)) om in
    mk (List.filter (fun o => negb (tick_fills tick o)) (pendingOrders om))
       (position om') (cash om').
Proof. unfold handleTick. by rewrite handleTick_loop_b64. Qed.

Lemma filter_none {A} (f : A -> bool) (l : list A) :
  (forall a, f a = false) ->
  List.filter f l = [] /\ List.filter (fun a => negb (f a)) l = l.
Proof.
  intros H. induction l as [|a l [IH1 IH2]]; [done|].
  cbn [List.filter]. rewrite H. cbn [negb]. by rewrite IH1, IH2.
Qed.

(** Matching against a trade tick: [handleTick(const Tick&)] fills exactly
    the pending buys whose price the tick's price is at most, and the
    pending sells whose price it is at least; it executes them in their
    order, each in full and at the order's own price, and keeps the others
    pending, in order.  An order whose price is not a number is never
    filled, and a tick whose price is not a number fills nothing. *)
Theorem trade_matching (om : t) (tick : Tick.t) :
  let filled := List.filter (tick_fills tick) (pendingOrders om) in
  let om' := handleTick om tick in
  (forall o, tick_fills tick o = true <->
     match Order.side o with
     | Order.BUY => (Tick.price tick <=? Order.price o)%float = true
     | Order.SELL => (Order.price o <=? Tick.price tick)%float = true
     end)
  /\ pendingOrders om'
     = List.filter (fun o => negb (tick_fills tick o)) (pendingOrders om)
  /\ position om' = position (fold_left execute filled om)
  /\ cash om' = cash (fold_left execute filled om)
  /\ (forall o, In o (pendingOrders om) ->
        (In o (pendingOrders om') <-> tick_fills tick o = false))
  /\ (forall o, is_nan (Order.price o) = true -> tick_fills tick o = false)
  /\ (is_nan (Tick.price tick) = true -> om' = om).
Proof.
  intros filled om'. subst filled om'.
  split; [intros o; unfold tick_fills; by destruct (Order.side o)|].
  rewrite handleTick_eq_b64. cbn [pendingOrders position cash].
  split; [done|]. split; [done|]. split; [done|]. split; [|split].
  - intros o Hin. rewrite filter_In.
    destruct (tick_fills tick o); cbn [negb]; intuition congruence.
  - intros o Hnan. unfold tick_fills.
    destruct (Order.side o); [by apply leb_nan_r|by apply leb_nan_l].
  - intros Hnan.
    destruct (filter_none (tick_fills tick) (pendingOrders om)) as [-> ->].
    + intros o. unfold tick_fills.
      destruct (Order.side o); [by apply leb_nan_l|by apply leb_nan_r].
    + by destruct om.
Qed.

(** The cash and position that a sequence of executions leads to depend
    on the cash and position it starts from only. *)
Lemma execute_all_ledger_b64 l a b :
  position a = position b -> cash a = cash b ->
  position (fold_left execute l a) = position (fold_left execute l b)
  /\ cash (fold_left execute l a) = cash (fold_left execute l b).
Proof.
  intros Hp Hc.
  destruct (execute_steps l a) as (_ & -> & ->).
  destruct (execute_steps l b) as (_ & -> & ->).
  by rewrite Hp, Hc.
Qed.

Lemma submit_all_eq_b64 orders om :
  fold_left submit orders om
  = mk (pendingOrders om ++ List.filter is_limit orders)
       (position (fold_left execute (List.filter is_market orders) om))
       (cash (fold_left execute (List.filter is_market orders) om)).
Proof.
  revert om. induction orders as [|o orders IH]; intros om.
  - cbn. rewrite app_nil_r. by destruct om.
  - cbn [fold_left List.filter]. rewrite IH. unfold submit, is_market, is_limit.
    destruct (Order.type o); cbn [fold_left pendingOrders].
    + by rewrite execute_pending_b64.
    + rewrite <- app_assoc. cbn [app].
      destruct (execute_all_ledger_b64 (List.filter is_market orders)
                  (mk (pendingOrders om ++ [o]) (position om) (cash om)) om
                  eq_refl eq_refl) as [Hp Hc].
      unfold is_market in Hp, Hc. by rewrite Hp, Hc.
Qed.

(** Submitting a sequence of orders executes its market orders, in order,
    and queues its limit orders, in order, behind the ones pending: a
    market order never waits, a limit order never executes on submission,
    and the limit orders in between leave the executions as they are. *)
Theorem submit_sequence (om : t) (orders : list Order.t) :
  let om' := fold_left submit orders om in
  let executed := List.filter is_market orders in
  pendingOrders om' = pendingOrders om ++ List.filter is_limit orders
  /\ position om' = position (fold_left execute executed om)
  /\ cash om' = cash (fold_left execute executed om).
Proof.
  intros om' executed. subst om' executed. by rewrite submit_all_eq_b64.
Qed.

End RoundedLedgerFacts.

(** ** The mean-reversion strategy in binary64 *)

Module RoundedStrategyFacts.
Import Floats Binary64 Binary64.OrderManager RoundedLedgerFacts.
#[local] Set Warnings "-inexact-float".

Lemma handleTick_no_pending_b64 om tick :
  pendingOrders om = [] -> handleTick om tick = om.
Proof.
  intros H. rewrite handleTick_eq_b64, H. cbn. destruct om. cbn in H.
  by subst.
Qed.

Lemma mean_reversion_step s tick :
  mean_reversion_inv s ->
  mean_reversion_inv (tick_iteration MeanReversionSimple.onTick s tick).
Proof.
  destruct s as [[lastPrice inPosition entryPrice] [pending pos c]].
  unfold mean_reversion_inv, tick_iteration, MeanReversionSimple.onTick.
  cbn [fst snd pendingOrders position MeanReversionSimple.inPosition
       MeanReversionSimple.lastPrice MeanReversionSimple.entryPrice].
  intros [-> ->].
  destruct (lastPrice <? 0)%float.
  { cbn [fst snd]. by rewrite handleTick_no_pending_b64. }
  destruct inPosition; cbn [negb andb].
  - destruct (entryPrice * 1.005 <? Tick.price tick)%float; cbn [fst snd];
      rewrite handleTick_no_pending_b64; done.
  - destruct (Tick.price tick <? lastPrice * 0.995)%float; cbn [fst snd];
      rewrite handleTick_no_pending_b64; done.
Qed.

(** The mean-reversion strategy holds one unit or none.  Run through the
    loop of the worker over any series of ticks, from a ledger with no
    pending order and no position, it leaves no order pending and a
    position of exactly 1 when it is in position and exactly 0 when it is
    not, whatever the prices (infinite ones and NaN included): it never
    holds more than one unit, is never short, and its position does not
    drift. *)
Theorem mean_reversion_holds_one_unit_or_none
    (c : double) (ticks : list Tick.t) :
  let s := fold_left (tick_iteration MeanReversionSimple.onTick) ticks
                     (MeanReversionSimple.new, mk [] 0 c) in
  pendingOrders s.2 = []
  /\ position s.2
     = if MeanReversionSimple.inPosition s.1 then 1%float else 0%float.
Proof.
  cbv zeta.
  assert (H : forall s, mean_reversion_inv s ->
             mean_reversion_inv
               (fold_left (tick_iteration MeanReversionSimple.onTick)
                          ticks s)).
  { induction ticks as [|tick ticks IH]; intros s Hs; [done|].
    cbn [fold_left]. by apply IH, mean_reversion_step. }
  apply (H (MeanReversionSimple.new, mk [] 0%float c)). by split.
Qed.

End RoundedStrategyFacts.

(** ** The statistics in binary64 *)

Module RoundedStatsFacts.
Import Floats Binary64 Binary64.StatsCollector Binary64.Statistiques.
#[local] Set Warnings "-inexact-float".

Lemma recordPnL_registry sc values :
  statsFunction (fold_left recordPnL values sc) = statsFunction sc.
Proof.
  revert sc. induction values as [|x values IH]; intros sc; [done|].
  cbn [fold_left]. by rewrite IH.
Qed.

Lemma recordPnL_pnl sc values :
  pnlSeries (fold_left recordPnL values sc) = pnlSeries sc ++ values.
Proof.
  revert sc. induction values as [|x values IH]; intros sc.
  - by rewrite app_nil_r.
  - cbn [fold_left]. rewrite IH. cbn [recordPnL pnlSeries].
    by rewrite <- app_assoc.
Qed.

(** One return per value after the first. *)
Lemma recordPnL_returns sc values :
  length (returnsSeries (fold_left recordPnL values sc))
  = (length (returnsSeries sc)
     + (length (pnlSeries sc ++ values) - 1)
     - (length (pnlSeries sc) - 1))%nat.
Proof.
  revert sc. induction values as [|x values IH]; intros sc.
  - rewrite app_nil_r. cbn [fold_left]. lia.
  - cbn [fold_left]. rewrite IH. cbn [recordPnL pnlSeries returnsSeries].
    rewrite <- app_assoc. cbn [app].
    destruct (last (pnlSeries sc)) as [prev|] eqn:E.
    + assert (Hne : pnlSeries sc <> []) by (intros H; by rewrite H in E).
      assert (0 < length (pnlSeries sc))%nat
        by (destruct (pnlSeries sc); [done|cbn; lia]).
      rewrite !length_app. cbn [length]. lia.
    + apply last_None in E. rewrite E. cbn [app length]. lia.
Qed.

Lemma addStat_fresh sc name f :
  statsFunction sc !! name = None ->
  statsFunction (addStat sc name f) = <[name := f]> (statsFunction sc).
Proof.
  intros H. unfold addStat. rewrite H.
  rewrite bool_decide_eq_false_2; [done|].
  intros [? ?]. discriminate.
Qed.

Lemma addStat_registry sc name f m :
  statsFunction sc = m -> m !! name = None ->
  statsFunction (addStat sc name f) = <[name := f]> m.
Proof. intros <- H. by apply addStat_fresh. Qed.

Lemma addStat_fields sc name f :
  initialPnL (addStat sc name f) = initialPnL sc
  /\ pnlSeries (addStat sc name f) = pnlSeries sc
  /\ returnsSeries (addStat sc name f) = returnsSeries sc.
Proof. unfold addStat. by destruct (bool_decide _). Qed.

(** The registry that [registerUserStats] builds on a collector without
    statistics. *)
Lemma registerUserStats_registry_b64 sc tf riskFreeRate periodsPerYear :
  statsFunction sc = ∅ ->
  let nPeriods := (getTicksPerDay tf * periodsPerYear)%float in
  statsFunction (registerUserStats sc tf riskFreeRate periodsPerYear)
  = <["Sortino" := Sortino nPeriods dead]>
      (<["Sharpe" := Sharpe nPeriods dead]>
         (<["AnnualizedVolatility" := AnnualizedVolatility nPeriods]>
            (<["MaxDrawdown" := MaxDrawdown]>
               (<["TotalReturn" := TotalReturn]>
                  (<["MeanReturn" := MeanReturn]> ∅))))).
Proof.
  intros Hsc nPeriods. unfold registerUserStats. cbv zeta. fold nPeriods.
  repeat (apply addStat_registry; [|by simplify_map_eq]).
  exact Hsc.
Qed.


Lemma registerUserStats_fields sc tf riskFreeRate periodsPerYear :
  initialPnL (registerUserStats sc tf riskFreeRate periodsPerYear)
  = initialPnL sc
  /\ pnlSeries (registerUserStats sc tf riskFreeRate periodsPerYear)
     = pnlSeries sc
  /\ returnsSeries (registerUserStats sc tf riskFreeRate periodsPerYear)
     = returnsSeries sc.
Proof.
  unfold registerUserStats. cbv zeta.
  repeat match goal with
         | |- context [addStat ?c ?n ?f] =>
             destruct (addStat_fields c n f) as (-> & -> & ->)
         end.
  done.
Qed.

Lemma computeStats_loop_undefined v (l : list (string * StatsFunction)) :
  fold_left (computeStats_body v) l None = None.
Proof. by induction l. Qed.

(** A statistic whose call is undefined makes the loop undefined. *)
Lemma computeStats_loop_None v (l : list (string * StatsFunction)) acc e :
  e ∈ l -> e.2 v = None -> fold_left (computeStats_body v) l acc = None.
Proof.
  intros Hin He. revert acc.
  induction Hin as [e l|e e' l Hin IH]; intros acc; cbn [fold_left].
  - unfold computeStats_body at 2. rewrite He.
    destruct acc; cbn; apply computeStats_loop_undefined.
  - apply IH, He.
Qed.

(** When every call is defined the loop stores the value of each. *)
Lemma computeStats_loop_Some v (l : list (string * StatsFunction)) acc :
  NoDup l.*1 ->
  Forall (fun e => is_Some (e.2 v)) l ->
  exists m,
    fold_left (computeStats_body v) l (Some acc) = Some m
    /\ forall n,
         m !! n
         = match (list_to_map l : gmap string StatsFunction) !! n with
           | Some f => f v
           | None => acc !! n
           end.
Proof.
  revert acc. induction l as [|[k f] l IH]; intros acc Hnd Hall.
  - by exists acc.
  - rewrite fmap_cons in Hnd. cbn [fst] in Hnd.
    apply NoDup_cons in Hnd as [Hk Hnd].
    apply Forall_cons in Hall as [[x Hx] Hall]. cbn [snd] in Hx.
    cbn [fold_left]. unfold computeStats_body at 2. cbn [fst snd].
    rewrite Hx. cbn [mbind option_bind].
    destruct (IH (<[k := x]> acc) Hnd Hall) as (m & Hm & Hres).
    exists m. split; [exact Hm|]. intros n. rewrite Hres.
    cbn [list_to_map foldr fst snd uncurry].
    destruct (decide (k = n)) as [->|Hne].
    + rewrite (not_elem_of_list_to_map_1 _ _ Hk).
      by rewrite !lookup_insert_eq.
    + by rewrite !lookup_insert_ne.
Qed.

(** [computeStats] on a series of two or more values. *)
Lemma computeStats_defined sc :
  (2 <= length (pnlSeries sc))%nat ->
  map_Forall (fun _ f => is_Some (f (view sc))) (statsFunction sc) ->
  exists m,
    computeStats sc = Some m
    /\ forall n, m !! n = statsFunction sc !! n ≫= (fun f => f (view sc)).
Proof.
  intros Hge Hall. unfold computeStats.
  apply Nat.ltb_ge in Hge. rewrite Hge.
  pose proof (NoDup_fst_map_to_list (statsFunction sc)) as Hnd.
  apply map_Forall_to_list in Hall.
  destruct (computeStats_loop_Some (view sc)
              (map_to_list (statsFunction sc)) ∅ Hnd) as (m & Hm & Hres).
  { eapply Forall_impl; [exact Hall|]. by intros [k f]. }
  exists m. split; [exact Hm|]. intros n.
  rewrite Hres, list_to_map_to_list.
  destruct (statsFunction sc !! n); [done|apply lookup_empty].
Qed.

Lemma computeStats_undefined sc name f :
  (2 <= length (pnlSeries sc))%nat ->
  statsFunction sc !! name = Some f -> f (view sc) = None ->
  computeStats sc = None.
Proof.
  intros Hge Hf Hnone. unfold computeStats.
  apply Nat.ltb_ge in Hge. rewrite Hge.
  apply (computeStats_loop_None _ _ _ (name, f)); [|done].
  by apply elem_of_map_to_list.
Qed.

(** The statistics of the standard registry on a series of two values,
    which has one return. *)
Lemma two_values_defined nPeriods (v : View) :
  (0 < length (getPnLSeries v))%nat ->
  length (getReturnsSeries v) = 1%nat ->
  is_Some (MeanReturn v) /\ is_Some (TotalReturn v)
  /\ is_Some (MaxDrawdown v)
  /\ AnnualizedVolatility nPeriods v = Some 0%float
  /\ Sharpe nPeriods dead v = Some 0%float
  /\ Sortino nPeriods dead v = Some 0%float.
Proof.
  intros Hpnl Hret.
  unfold MeanReturn, TotalReturn, MaxDrawdown, AnnualizedVolatility,
    Sharpe, Sortino.
  cbv zeta. rewrite Hret.
  destruct (getReturnsSeries v) as [|r [|r' l]]; try discriminate Hret.
  destruct (getPnLSeries v) as [|front rest] eqn:E; [cbn in Hpnl; lia|].
  split; [by eexists|]. split.
  { destruct (last (front :: rest)) eqn:El; [by eexists|].
    by apply last_None in El. }
  split; [by eexists|]. split; [done|]. split; [done|].
  cbn [fold_left]. unfold Sortino_body. cbn [mbind option_bind].
  destruct (r <? 0)%float; reflexivity.
Qed.


(** Statistics need two values and survive no more than two.  On a new
    collector with the statistics of [registerUserStats], after any values
    have been recorded: with fewer than two values [computeStats] returns
    the empty map; with exactly two it returns the six statistics, the
    volatility and the two ratios being 0; with three or more its call of
    [Sharpe] reads the parameter [riskFreeRate] of [registerUserStats]
    through the captured reference, after that call has returned, which
    is undefined behaviour. *)
Theorem statistics_read_a_dead_parameter
    (tf : TimeFrame) (riskFreeRate periodsPerYear : double)
    (values : list double) :
  let sc :=
    fold_left recordPnL values
              (registerUserStats new tf riskFreeRate periodsPerYear) in
  ((length values < 2)%nat -> computeStats sc = Some ∅)
  /\ (length values = 2%nat ->
      exists m,
        computeStats sc = Some m
        /\ dom m = list_to_set user_stat_names
        /\ m !! "AnnualizedVolatility"%string = Some 0%float
        /\ m !! "Sharpe"%string = Some 0%float
        /\ m !! "Sortino"%string = Some 0%float)
  /\ ((3 <= length values)%nat ->
      Sharpe (getTicksPerDay tf * periodsPerYear)%float dead (view sc) = None
      /\ computeStats sc = None).
Proof.
  intros sc.
  set (nPeriods := (getTicksPerDay tf * periodsPerYear)%float).
  destruct (registerUserStats_fields new tf riskFreeRate periodsPerYear)
    as (_ & Hp0 & Hr0).
  assert (Hreg : statsFunction sc
                 = <["Sortino" := Sortino nPeriods dead]>
                     (<["Sharpe" := Sharpe nPeriods dead]>
                        (<["AnnualizedVolatility"
                           := AnnualizedVolatility nPeriods]>
                           (<["MaxDrawdown" := MaxDrawdown]>
                              (<["TotalReturn" := TotalReturn]>
                                 (<["MeanReturn" := MeanReturn]> ∅)))))).
  { subst sc. rewrite recordPnL_registry.
    by apply registerUserStats_registry_b64. }
  assert (Hpnl : pnlSeries sc = values).
  { subst sc. by rewrite recordPnL_pnl, Hp0. }
  assert (Hret : length (returnsSeries sc) = (length values - 1)%nat).
  { subst sc. rewrite recordPnL_returns, Hp0, Hr0. cbn. lia. }
  clearbody sc nPeriods.
  split; [|split].
  - intros Hlt. unfold computeStats. rewrite Hpnl.
    apply Nat.ltb_lt in Hlt. by rewrite Hlt.
  - intros H2.
    destruct (two_values_defined nPeriods (view sc))
      as (Hmean & Htot & Hdd & Hvol & Hsh & Hso).
    { cbn. rewrite Hpnl. lia. }
    { cbn. rewrite Hret. lia. }
    assert (Hall : map_Forall (fun _ f => is_Some (f (view sc)))
                              (statsFunction sc)).
    { rewrite Hreg.
      repeat (apply map_Forall_insert_2; [by eauto|]).
      apply map_Forall_empty. }
    destruct (computeStats_defined sc) as (m & Hm & Hres);
      [rewrite Hpnl; lia|exact Hall|].
    exists m. split; [exact Hm|].
    split.
    2:{ rewrite !Hres, Hreg. split; [|split].
        - rewrite !lookup_insert_ne by done. by rewrite lookup_insert_eq.
        - rewrite !lookup_insert_ne by done. by rewrite lookup_insert_eq.
        - by rewrite lookup_insert_eq. }
    apply set_eq. intros n. rewrite elem_of_dom, Hres.
    assert (Hn : is_Some (statsFunction sc !! n ≫= fun f => f (view sc))
                 <-> n ∈ dom (statsFunction sc)).
    { rewrite elem_of_dom.
      destruct (statsFunction sc !! n) as [f|] eqn:E; cbn.
      - split; [by eauto|]. intros _. exact (Hall n f E).
      - split; intros [? ?]; discriminate. }
    rewrite Hn, Hreg. unfold user_stat_names.
    rewrite !dom_insert_L, dom_empty_L. set_solver.
  - intros H3.
    assert (Hsh : Sharpe nPeriods dead (view sc) = None).
    { unfold Sharpe. cbn [view getReturnsSeries]. cbv zeta. rewrite Hret.
      replace (length values - 1 <? 2)%nat with false; [done|].
      symmetry. apply Nat.ltb_ge. lia. }
    split; [exact Hsh|].
    apply (computeStats_undefined sc "Sharpe" (Sharpe nPeriods dead));
      [rewrite Hpnl; lia| |exact Hsh].
    rewrite Hreg, lookup_insert_ne by done. by rewrite lookup_insert_eq.
Qed.

End RoundedStatsFacts.
